(** * Prism of Torah client script: a shallow embedding of [script.js]

    The script is a set of DOM event handlers.  Each handler is embedded as a
    function on an explicit record of the DOM attributes and closure
    variables it reads and writes; a [null] selector result is an [option];
    a thrown exception is an explicit outcome; timers live in a small
    virtual-clock event loop.  JavaScript strings are sequences of UTF-16
    code units. *)

From Stdlib Require Import ZArith NArith Ascii String DecimalString.
From Stdlib Require DecimalPos DecimalN.
From stdpp Require Import base tactics option list numbers.

Set Default Proof Using "Type".
Open Scope nat_scope.

(* ===================================================================== *)
(** ** JavaScript values used by the script *)
(* ===================================================================== *)

Module JS.

(** A string is its list of UTF-16 code units. *)
Definition jsstring := list N.

(** String literals of the source (all of them ASCII). *)
Definition str (s : string) : jsstring :=
  map N_of_ascii (list_ascii_of_string s).

(** The regular-expression class [\s], which is also the set stripped by
    [String.prototype.trim]: WhiteSpace and LineTerminator code units. *)
Definition is_space (c : N) : bool :=
  ((9 <=? c) && (c <=? 13) || (c =? 32) || (c =? 160) || (c =? 5760)
   || (8192 <=? c) && (c <=? 8202) || (c =? 8232) || (c =? 8233)
   || (c =? 8239) || (c =? 8287) || (c =? 12288) || (c =? 65279))%N.

Definition AT : N := 64.   (* '@' *)
Definition DOT : N := 46.  (* '.' *)
Definition COLON : N := 58. (* ':' *)

(** [s.trim()] *)
Fixpoint trimStart (s : jsstring) : jsstring :=
  match s with
  | c :: s' => if is_space c then trimStart s' else s
  | [] => []
  end.
Definition trimEnd (s : jsstring) : jsstring := rev (trimStart (rev s)).
Definition trim (s : jsstring) : jsstring := trimEnd (trimStart s).

(** Truthiness of a string: non-empty. *)
Definition truthy (s : jsstring) : bool :=
  match s with [] => false | _ => true end.

(** A number as the script computes with it: an integer or [NaN].  (The
    script's numbers stay far below 2^53, where doubles are exact.) *)
Inductive num := NaN | Int (z : Z).

Definition num_add (a b : num) : num :=
  match a, b with Int x, Int y => Int (x + y) | _, _ => NaN end.
Definition num_mul (a b : num) : num :=
  match a, b with Int x, Int y => Int (x * y) | _, _ => NaN end.
(** [a < b]: every comparison with [NaN] is false. *)
Definition num_ltb (a b : num) : bool :=
  match a, b with Int x, Int y => (x <? y)%Z | _, _ => false end.
(** [a > b] *)
Definition num_gtb (a b : num) : bool := num_ltb b a.

End JS.
Import JS.

(* ===================================================================== *)
(** ** Regular expressions, as far as [emailRegex] needs them *)
(* ===================================================================== *)

Module Regex.

Inductive regex :=
| Void
| Eps
| Class (p : N → bool)
| Cat (r1 r2 : regex)
| Alt (r1 r2 : regex)
| Star (r : regex).

(** [r+] *)
Definition Plus (r : regex) : regex := Cat r (Star r).
(** a literal code unit *)
Definition Chr (c : N) : regex := Class (N.eqb c).

(** The words a pattern matches from its first to its last code unit. *)
Inductive lang : regex → jsstring → Prop :=
| lang_eps : lang Eps []
| lang_class p c : p c = true → lang (Class p) [c]
| lang_cat r1 r2 u v : lang r1 u → lang r2 v → lang (Cat r1 r2) (u ++ v)
| lang_alt_l r1 r2 u : lang r1 u → lang (Alt r1 r2) u
| lang_alt_r r1 r2 u : lang r2 u → lang (Alt r1 r2) u
| lang_star_nil r : lang (Star r) []
| lang_star_app r u v : lang r u → lang (Star r) v → lang (Star r) (u ++ v).

Fixpoint nullable (r : regex) : bool :=
  match r with
  | Void => false
  | Eps => true
  | Class _ => false
  | Cat r1 r2 => nullable r1 && nullable r2
  | Alt r1 r2 => nullable r1 || nullable r2
  | Star _ => true
  end.

Fixpoint deriv (c : N) (r : regex) : regex :=
  match r with
  | Void => Void
  | Eps => Void
  | Class p => if p c then Eps else Void
  | Cat r1 r2 =>
      if nullable r1 then Alt (Cat (deriv c r1) r2) (deriv c r2)
      else Cat (deriv c r1) r2
  | Alt r1 r2 => Alt (deriv c r1) (deriv c r2)
  | Star r1 => Cat (deriv c r1) (Star r1)
  end.

(** [/^r$/.test(s)]: the whole of [s] has to match. *)
Fixpoint test_anchored (r : regex) (s : jsstring) : bool :=
  match s with
  | [] => nullable r
  | c :: s' => test_anchored (deriv c r) s'
  end.

End Regex.
Import Regex.

(* ===================================================================== *)
(** ** utils *)
(* ===================================================================== *)

Module utils.

(** [[^\s@]] *)
Definition not_space_at (c : N) : bool := negb (is_space c || (c =? AT)%N).

(** [/^[^\s@]+@[^\s@]+\.[^\s@]+$/] *)
Definition emailRegex : regex :=
  Cat (Plus (Class not_space_at))
    (Cat (Chr AT)
       (Cat (Plus (Class not_space_at))
          (Cat (Chr DOT) (Plus (Class not_space_at))))).

Definition isValidEmail (email : jsstring) : bool :=
  test_anchored emailRegex email.

(** [n.toString()] for an integer. *)
Definition toString (z : Z) : jsstring :=
  str (DecimalString.NilZero.string_of_int (Z.to_int z)).

(** [s.padStart(2, '0')] *)
Definition padStart2 (s : jsstring) : jsstring :=
  match s with
  | [] => [48%N; 48%N]
  | [c] => [48%N; c]
  | _ => s
  end.

(** [utils.formatTime], on the integers the player passes to it. *)
Definition formatTime (seconds : Z) : jsstring :=
  let mins := (seconds / 60)%Z in
  let secs := Z.rem seconds 60 in
  toString mins ++ [COLON] ++ padStart2 (toString secs).

(** [utils.announce]: writes the message into the live region
    [#announcements] when the page has one ([None]: it has none).  The
    timer that empties the region a second later is not part of the
    handlers' synchronous run. *)
Definition announce (message : jsstring) (announcer : option jsstring)
  : option jsstring :=
  match announcer with
  | Some _ => Some message
  | None => None
  end.

End utils.

(* ===================================================================== *)
(** ** Timers: a virtual-clock event loop *)
(* ===================================================================== *)

(** Time is counted in milliseconds.  A timer set at time [t] with delay [d]
    runs at time [t + d]; timers due at the same instant run in the order in
    which they were set; a timer that is due at the instant of a call runs
    before the call.  [W] is the state the callbacks work on, [Cb] the
    closures handed to [setTimeout]. *)
Module EventLoop.
Section Loop.
Context {W Cb : Type}.

Record timer := { tid : nat; due : nat; cb : Cb }.
Record loop :=
  { now : nat; next_id : nat; pending : list timer; world : W }.

Definition set_world (w : W) (l : loop) : loop :=
  {| now := now l; next_id := next_id l; pending := pending l;
     world := w |}.

Definition set_now (t : nat) (l : loop) : loop :=
  {| now := t; next_id := next_id l; pending := pending l;
     world := world l |}.

Definition setTimeout (c : Cb) (delay : nat) (l : loop) : nat * loop :=
  (next_id l,
   {| now := now l; next_id := S (next_id l);
      pending := pending l ++ [{| tid := next_id l;
                                  due := now l + delay; cb := c |}];
      world := world l |}).

(** [clearTimeout(id)]; an [undefined] id ([None]) clears nothing. *)
Definition clearTimeout (id : option nat) (l : loop) : loop :=
  match id with
  | None => l
  | Some i =>
      {| now := now l; next_id := next_id l;
         pending := filter (λ t, tid t ≠ i) (pending l);
         world := world l |}
  end.

(** What a callback does when its timer runs. *)
Variable run : Cb → loop → loop.

(** Run the timers of [ts] that are still pending when their turn
    comes (an earlier callback may have cleared them). *)
Fixpoint fire_list (ts : list timer) (l : loop) : loop :=
  match ts with
  | [] => l
  | t :: ts' =>
      if decide (Exists (λ t', tid t' = tid t) (pending l))
      then fire_list ts' (run (cb t) (clearTimeout (Some (tid t)) l))
      else fire_list ts' l
  end.

(** Run everything that is due at the current instant. *)
Definition fire_due (l : loop) : loop :=
  fire_list (filter (λ t, due t ≤ now l) (pending l)) l.

(** One millisecond passes. *)
Definition tick (l : loop) : loop := fire_due (set_now (S (now l)) l).

Fixpoint advance (n : nat) (l : loop) : loop :=
  match n with
  | 0 => l
  | S n' => advance n' (tick l)
  end.

(** Let the clock reach time [t], running the timers that come due on
    the way (those already due first). *)
Definition run_until (t : nat) (l : loop) : loop :=
  advance (t - now l) (fire_due l).

End Loop.
Arguments timer : clear implicits.
Arguments loop : clear implicits.

(** Call times [ts] that follow a call at time [t], each less than [window]
    after the one before it. *)
Fixpoint burst (window t : nat) (ts : list nat) : Prop :=
  match ts with
  | [] => True
  | t' :: rest => t ≤ t' ∧ t' < t + window ∧ burst window t' rest
  end.

End EventLoop.
Import EventLoop.

(** [utils.debounce(func, wait)].  [func] is an arbitrary callee; what the
    model keeps of it is the record of its invocations. *)
Module debounce.
Section Debounce.
Context {A : Type}.
Variable wait : nat.

(** The closure variable [timeout] and the invocations of [func]: the
    time of each and its arguments. *)
Record closure := { timeout : option nat; invoked : list (nat * A) }.

(** The arrow function [later], closed over [args]. *)
Inductive callback := later (args : A).

Definition run (c : callback) (l : loop closure callback)
  : loop closure callback :=
  match c with
  | later args =>
      let l1 := clearTimeout (timeout (world l)) l in
      set_world {| timeout := timeout (world l1);
                   invoked := invoked (world l1) ++ [(now l1, args)] |}
                l1
  end.

Definition executedFunction (args : A) (l : loop closure callback)
  : loop closure callback :=
  let l1 := clearTimeout (timeout (world l)) l in
  let '(id, l2) := setTimeout (later args) wait l1 in
  set_world {| timeout := Some id; invoked := invoked (world l2) |} l2.

(** The wrapper as [debounce] returns it. *)
Definition init (t0 : nat) : loop closure callback :=
  {| now := t0; next_id := 0; pending := [];
     world := {| timeout := None; invoked := [] |} |}.

(** A call of the wrapper at time [t]. *)
Definition call_at (l : loop closure callback) (c : nat * A)
  : loop closure callback :=
  executedFunction (snd c) (run_until run (fst c) l).

Definition run_calls (cs : list (nat * A)) (l : loop closure callback)
  : loop closure callback :=
  fold_left call_at cs l.

(** The loop as a call at time [t] with [args] leaves it when [func] has
    not run yet: the call's timer, numbered [k], is the only one pending. *)
Definition armed (t k : nat) (args : A) : loop closure callback :=
  {| now := t; next_id := S k;
     pending := [{| tid := k; due := t + wait; cb := later args |}];
     world := {| timeout := Some k; invoked := [] |} |}.

End Debounce.
End debounce.

(** [utils.throttle(func, limit)]. *)
Module throttle.
Section Throttle.
Context {A : Type}.
Variable limit : nat.

Record closure := { inThrottle : bool; invoked : list (nat * A) }.

(** [() => inThrottle = false] *)
Inductive callback := release.

Definition run (c : callback) (l : loop closure callback)
  : loop closure callback :=
  match c with
  | release =>
      set_world {| inThrottle := false; invoked := invoked (world l) |} l
  end.

Definition wrapper (args : A) (l : loop closure callback)
  : loop closure callback :=
  if negb (inThrottle (world l)) then
    let l1 := set_world {| inThrottle := inThrottle (world l);
                           invoked := invoked (world l) ++ [(now l, args)] |}
                        l in
    let l2 := set_world {| inThrottle := true;
                           invoked := invoked (world l1) |} l1 in
    snd (setTimeout release limit l2)
  else l.

Definition init (t0 : nat) : loop closure callback :=
  {| now := t0; next_id := 0; pending := [];
     world := {| inThrottle := false; invoked := [] |} |}.

Definition call_at (l : loop closure callback) (c : nat * A)
  : loop closure callback :=
  wrapper (snd c) (run_until run (fst c) l).

Definition run_calls (cs : list (nat * A)) (l : loop closure callback)
  : loop closure callback :=
  fold_left call_at cs l.

(** The loop at time [t] while the wrapper is closed: [func] ran at [t1],
    the timer that reopens the wrapper, numbered [k], is the only one
    pending, and [log] lists the invocations so far. *)
Definition held (t1 k : nat) (log : list (nat * A)) (t : nat)
  : loop closure callback :=
  {| now := t; next_id := S k;
     pending := [{| tid := k; due := t1 + limit; cb := release |}];
     world := {| inThrottle := true; invoked := log |} |}.

End Throttle.
End throttle.


(* ===================================================================== *)
(** ** Navigation: smooth scrolling *)
(* ===================================================================== *)

Module Navigation.

(** What a selector lookup gives: a [SyntaxError] for a malformed selector
    (such as the bare [#] of [href="#"]), [null], or an element, of which
    the handler reads [offsetTop]. *)
Inductive selection :=
| invalidSelector
| noMatch
| found (offsetTop : Z).

(** What [setupSmoothScrolling]'s click handler reads of the document: the
    result of [utils.$('#' + targetId)], and the [offsetHeight] of the
    first [.header] element ([None]: the selector matches nothing). *)
Record document :=
  { querySelectorId : jsstring → selection;
    header : option Z }.

(** What the handler has done when it returns or throws. *)
Record effects :=
  { defaultPrevented : bool;
    scrolledTo : option Z;       (* [window.scrollTo({top, ...})] *)
    focusScheduled : bool }.     (* the 500ms [setTimeout] *)

Inductive completion := Normal | SyntaxError | TypeError.

(** [href.substring(1)] *)
Definition substring1 (href : jsstring) : jsstring := drop 1 href.

(** [x || 0] on a number. *)
Definition or_zero (x : Z) : Z := if (x =? 0)%Z then 0%Z else x.

Definition untouched : effects :=
  {| defaultPrevented := false; scrolledTo := None; focusScheduled := false |}.

Definition clickScrollLink (href : jsstring) (d : document)
  : completion * effects :=
  let targetId := substring1 href in
  match querySelectorId d targetId with
  | invalidSelector => (SyntaxError, untouched)
  | noMatch => (Normal, untouched)
  | found offsetTop =>
      (* e.preventDefault() *)
      match header d with
      | None =>
          (* utils.$('.header') is null: reading .offsetHeight throws *)
          (TypeError, {| defaultPrevented := true; scrolledTo := None;
                         focusScheduled := false |})
      | Some offsetHeight =>
          let headerHeight := or_zero offsetHeight in
          let targetPosition := (offsetTop - headerHeight - 20)%Z in
          (Normal, {| defaultPrevented := true;
                      scrolledTo := Some targetPosition;
                      focusScheduled := true |})
      end
  end.

End Navigation.

(* ===================================================================== *)
(** ** AudioPlayer *)
(* ===================================================================== *)

Module AudioPlayer.

(** The two pieces of markup the handlers write into a play button, and
    whatever the page's own markup put there. *)
Inductive icon := PageMarkup | PlayIcon | PauseIcon.

Record button := { innerHTML : icon; ariaLabel : option jsstring }.

Inductive width := Unset | Percent (progress : Z) (duration : num).

(** The elements [initializePlayer] looks up inside a player element. *)
Record playerElement :=
  { playBtn : option button;
    progressBar : option width;          (* style.width *)
    currentTime : option jsstring;       (* textContent *)
    totalTime : option jsstring }.       (* textContent *)

(** The closure variables of one initialised player. *)
Record closure := { isPlaying : bool; progress : Z; duration : num }.

(** A player element, and its closure once [initializePlayer] has got past
    [if (!playBtn) return]. *)
Record player := { element : playerElement; state : option closure }.

(** [parseInt(s)], without a radix. *)
Definition digit (radix c : N) : option N :=
  let v := if ((48 <=? c) && (c <=? 57))%N then Some (c - 48)%N
           else if ((97 <=? c) && (c <=? 122))%N then Some (c - 87)%N
           else if ((65 <=? c) && (c <=? 90))%N then Some (c - 55)%N
           else None in
  match v with
  | Some d => if (d <? radix)%N then Some d else None
  | None => None
  end.

Fixpoint digits (radix : N) (s : jsstring) (acc : option N) : option N :=
  match s with
  | c :: s' =>
      match digit radix c with
      | Some d => digits radix s' (Some (default 0%N acc * radix + d)%N)
      | None => acc
      end
  | [] => acc
  end.

Definition parseInt (s : option jsstring) : num :=
  match s with
  | None => NaN                       (* parseInt(undefined) *)
  | Some s =>
      let s1 := trimStart s in
      let '(sign, s2) :=
        match s1 with
        | 45%N :: r => ((-1)%Z, r)
        | 43%N :: r => (1%Z, r)
        | _ => (1%Z, s1)
        end in
      let '(radix, s3) :=
        match s2 with
        | 48%N :: x :: r =>
            if ((x =? 120) || (x =? 88))%N then (16%N, r) else (10%N, s2)
        | _ => (10%N, s2)
        end in
      match digits radix s3 None with
      | Some n => Int (sign * Z.of_N n)
      | None => NaN
      end
  end.

(** [s.split(':')] *)
Fixpoint split_colon (s : jsstring) : list jsstring :=
  match s with
  | [] => [[]]
  | c :: s' =>
      if (c =? COLON)%N then [] :: split_colon s'
      else match split_colon s' with
           | p :: ps => (c :: p) :: ps
           | [] => [[c]]
           end
  end.

Definition parseDuration (timeString : jsstring) : num :=
  let parts := split_colon timeString in
  num_add (num_mul (parseInt (parts !! 0)) (Int 60)) (parseInt (parts !! 1)).

Definition initializePlayer (e : playerElement) : player :=
  match playBtn e with
  | None => {| element := e; state := None |}
  | Some _ =>
      let text := match totalTime e with
                  | Some t => if truthy t then t else str "0:00"
                  | None => str "0:00"
                  end in
      {| element := e;
         state := Some {| isPlaying := false; progress := 0;
                          duration := parseDuration text |} |}
  end.

Definition showPlay (b : button) : button :=
  {| innerHTML := PlayIcon; ariaLabel := Some (str "Play episode") |}.
Definition showPause (b : button) : button :=
  {| innerHTML := PauseIcon; ariaLabel := Some (str "Pause episode") |}.

Definition set_playBtn (b : option button) (e : playerElement)
  : playerElement :=
  {| playBtn := b; progressBar := progressBar e;
     currentTime := currentTime e; totalTime := totalTime e |}.

(** The page: its players in document order, each with one play button at
    most, and the live region. *)
Record page := { players : list player; announcer : option jsstring }.

(** [playAudio(playerElement)]: every play button outside the player
    [i] gets the play icon and label. *)
Definition playAudio (i : nat) (ps : list player) : list player :=
  imap (λ j p,
      if decide (j = i) then p
      else {| element := set_playBtn (showPlay <$> playBtn (element p))
                                     (element p);
              state := state p |}) ps.

(** [pauseAudio] only writes to the console. *)
Definition pauseAudio (i : nat) (ps : list player) : list player := ps.

Definition set_isPlaying (b : bool) (c : closure) : closure :=
  {| isPlaying := b; progress := progress c; duration := duration c |}.

(** The click handler of player [i]'s play button; players without a
    closure have no handler.  (The transient [scale-110] class that
    [utils.animate] puts on the button is not part of the model.) *)
Definition clickPlay (i : nat) (pg : page) : page :=
  match players pg !! i with
  | Some {| element := e; state := Some c |} =>
      let isPlaying' := negb (isPlaying c) in
      let c' := set_isPlaying isPlaying' c in
      if isPlaying' then
        let ps := playAudio i (players pg) in
        {| players :=
             <[i := {| element := set_playBtn (showPause <$> playBtn e) e;
                       state := Some c' |}]> ps;
           announcer := utils.announce (str "Playing episode") (announcer pg) |}
      else
        let ps := pauseAudio i (players pg) in
        {| players :=
             <[i := {| element := set_playBtn (showPlay <$> playBtn e) e;
                       state := Some c' |}]> ps;
           announcer := utils.announce (str "Episode paused") (announcer pg) |}
  | _ => pg
  end.

(** [updateProgress], the callback of the player's 1000ms interval, which
    exists when the player has a progress bar and a current-time element. *)
Definition updateProgress (p : player) : player :=
  match state p, progressBar (element p), currentTime (element p) with
  | Some c, Some _, Some _ =>
      if isPlaying c && num_ltb (Int (progress c)) (duration c) then
        let progress' := (progress c + 1)%Z in
        {| element :=
             {| playBtn := playBtn (element p);
                progressBar := Some (Percent progress' (duration c));
                currentTime := Some (utils.formatTime progress');
                totalTime := totalTime (element p) |};
           state := Some {| isPlaying := isPlaying c; progress := progress';
                            duration := duration c |} |}
      else p
  | _, _, _ => p
  end.

(** One tick of player [i]'s interval. *)
Definition tickPlayer (i : nat) (pg : page) : page :=
  {| players := alter updateProgress i (players pg);
     announcer := announcer pg |}.

Inductive event := Click (i : nat) | Tick (i : nat).

Definition step (pg : page) (e : event) : page :=
  match e with
  | Click i => clickPlay i pg
  | Tick i => tickPlayer i pg
  end.

Definition run (es : list event) (pg : page) : page := fold_left step es pg.

(** The players whose closure says [isPlaying]. *)
Definition playing (p : player) : bool :=
  match state p with Some c => isPlaying c | None => false end.
Definition playingCount (pg : page) : nat :=
  length (List.filter playing (players pg)).

(** The play buttons that show the pause control. *)
Definition showsPause (p : player) : bool :=
  match playBtn (element p) with
  | Some {| innerHTML := PauseIcon |} => true
  | _ => false
  end.

Definition progressOf (p : player) : Z :=
  match state p with Some c => progress c | None => 0%Z end.

(** [progress > duration] *)
Definition exceeds (p : player) : bool :=
  match state p with
  | Some c => num_gtb (Int (progress c)) (duration c)
  | None => false
  end.

(** The player has an interval: it was initialised, and it has a progress
    bar and a current-time element. *)
Definition hasInterval (p : player) : bool :=
  match state p, progressBar (element p), currentTime (element p) with
  | Some _, Some _, Some _ => true
  | _, _, _ => false
  end.

End AudioPlayer.


(* ===================================================================== *)
(** ** Modal: the email-capture form *)
(* ===================================================================== *)

Module Modal.

Record submitButton :=
  { disabled : bool; textContent : jsstring; background : jsstring }.

Record modalElement := { ariaHidden : option jsstring; display : jsstring }.

(** The callbacks handed to [setTimeout], with their delays. *)
Inductive delayed :=
| hideModal                                  (* 250ms, in [closeModal] *)
| closeAndRestore (originalText : jsstring). (* 2000ms, after a success *)

(** The email-capture dialog as [handleEmailSubmission] sees it;
    [submitEmailCalls] lists the arguments [submitEmail] was called with. *)
Record dialog :=
  { emailValue : option jsstring;      (* [input[type="email"]].value *)
    submitBtn : option submitButton;   (* [button[type="submit"]] *)
    errorDiv : option jsstring;        (* [.form__error].textContent *)
    modal : modalElement;
    bodyOverflow : jsstring;
    announcer : option jsstring;
    submitEmailCalls : list jsstring;
    timers : list (nat * delayed) }.

Definition set_errorDiv (e : option jsstring) (d : dialog) : dialog :=
  {| emailValue := emailValue d; submitBtn := submitBtn d; errorDiv := e;
     modal := modal d; bodyOverflow := bodyOverflow d;
     announcer := announcer d; submitEmailCalls := submitEmailCalls d;
     timers := timers d |}.
Definition set_submitBtn (b : option submitButton) (d : dialog) : dialog :=
  {| emailValue := emailValue d; submitBtn := b; errorDiv := errorDiv d;
     modal := modal d; bodyOverflow := bodyOverflow d;
     announcer := announcer d; submitEmailCalls := submitEmailCalls d;
     timers := timers d |}.
Definition do_announce (m : jsstring) (d : dialog) : dialog :=
  {| emailValue := emailValue d; submitBtn := submitBtn d;
     errorDiv := errorDiv d; modal := modal d;
     bodyOverflow := bodyOverflow d;
     announcer := utils.announce m (announcer d);
     submitEmailCalls := submitEmailCalls d; timers := timers d |}.
Definition call_submitEmail (email : jsstring) (d : dialog) : dialog :=
  {| emailValue := emailValue d; submitBtn := submitBtn d;
     errorDiv := errorDiv d; modal := modal d;
     bodyOverflow := bodyOverflow d; announcer := announcer d;
     submitEmailCalls := submitEmailCalls d ++ [email]; timers := timers d |}.
Definition do_setTimeout (c : delayed) (ms : nat) (d : dialog) : dialog :=
  {| emailValue := emailValue d; submitBtn := submitBtn d;
     errorDiv := errorDiv d; modal := modal d;
     bodyOverflow := bodyOverflow d; announcer := announcer d;
     submitEmailCalls := submitEmailCalls d;
     timers := timers d ++ [(ms, c)] |}.

(** [if (el) el.textContent = text] *)
Definition write_if_present (text : jsstring) (el : option jsstring)
  : option jsstring :=
  match el with Some _ => Some text | None => None end.

(** How a run of the async handler ends: it returns, its promise rejects
    with a [TypeError], or it is suspended at [await this.submitEmail(email)]
    holding [originalText]. *)
Inductive completion :=
| Returned
| Rejected
| AwaitSubmitEmail (originalText : jsstring).

Definition handleEmailSubmission (d : dialog) : completion * dialog :=
  match emailValue d with
  | None => (Rejected, d)
  | Some email =>
      let d1 := set_errorDiv (write_if_present [] (errorDiv d)) d in
      if negb (utils.isValidEmail email) then
        let msg := str "Please enter a valid email address" in
        let d2 := set_errorDiv (write_if_present msg (errorDiv d1)) d1 in
        (Returned, do_announce msg d2)
      else
        match submitBtn d1 with
        | None => (Rejected, d1)
        | Some b =>
            let originalText := textContent b in
            let d2 :=
              set_submitBtn
                (Some {| disabled := true;
                         textContent := str "Subscribing...";
                         background := background b |}) d1 in
            (AwaitSubmitEmail originalText, call_submitEmail email d2)
        end
  end.

(** The rest of the handler, once the promise of [submitEmail] has settled
    ([resolved]: it was fulfilled). *)
Definition afterSubmitEmail (resolved : bool) (originalText : jsstring)
    (d : dialog) : dialog :=
  if resolved then
    let d1 :=
      set_submitBtn
        ((λ b, {| disabled := disabled b; textContent := str "Subscribed!";
                  background := str "var(--color-success)" |})
           <$> submitBtn d) d in
    let d2 := do_announce (str "Successfully subscribed to newsletter") d1 in
    do_setTimeout (closeAndRestore originalText) 2000 d2
  else
    let d1 :=
      set_errorDiv
        (write_if_present (str "Something went wrong. Please try again.")
                          (errorDiv d)) d in
    let d2 :=
      set_submitBtn
        ((λ b, {| disabled := false; textContent := originalText;
                  background := background b |}) <$> submitBtn d1) d1 in
    do_announce (str "Subscription failed. Please try again.") d2.

(** The modal counts as open while [aria-hidden] is not ["true"]. *)
Definition isOpen (d : dialog) : bool :=
  bool_decide (ariaHidden (modal d) ≠ Some (str "true")).

End Modal.

(* ===================================================================== *)
(** ** Forms: field validation and the contact form *)
(* ===================================================================== *)

Module Forms.

Inductive tag := input | textarea | select.

Record field :=
  { tagName : tag;
    type : jsstring;
    name : jsstring;
    required : bool;                 (* hasAttribute('required') *)
    value : jsstring;
    ariaInvalid : option jsstring;
    fieldError : bool }.             (* class [field-error] *)

Record submitButton :=
  { disabled : bool; textContent : jsstring; background : jsstring }.

(** A contact form and the parts of the document its handler touches:
    [errorDivs] maps the ids of the error elements to their text;
    [submitContactFormCalls] lists the form data [submitContactForm] was
    called with. *)
Record form :=
  { fields : list field;
    submitBtn : option submitButton;
    errorDivs : list (jsstring * jsstring);
    announcer : option jsstring;
    submitContactFormCalls : list (list (jsstring * jsstring)) }.

(** [if (errorDiv) errorDiv.textContent = message], on the first element
    with the id. *)
Fixpoint writeError (id message : jsstring)
    (errs : list (jsstring * jsstring)) : list (jsstring * jsstring) :=
  match errs with
  | [] => []
  | (k, v) :: rest =>
      if decide (k = id) then (k, message) :: rest
      else (k, v) :: writeError id message rest
  end.

(** [String(b)] *)
Definition ofBool (b : bool) : jsstring :=
  if b then str "true" else str "false".

Definition validateField (f : field) (errs : list (jsstring * jsstring))
  : bool * field * list (jsstring * jsstring) :=
  let isValid := true in
  let message : jsstring := [] in
  let '(isValid, message) :=
    if required f && negb (truthy (trim (value f)))
    then (false, str "This field is required") else (isValid, message) in
  let '(isValid, message) :=
    if bool_decide (type f = str "email") && truthy (value f)
       && negb (utils.isValidEmail (value f))
    then (false, str "Please enter a valid email address")
    else (isValid, message) in
  let errs' := writeError (name f ++ str "-error") message errs in
  (isValid,
   {| tagName := tagName f; type := type f; name := name f;
      required := required f; value := value f;
      ariaInvalid := Some (ofBool (negb isValid));
      fieldError := negb isValid |},
   errs').

(** [input[required], textarea[required]] *)
Definition requiredInputOrTextarea (f : field) : bool :=
  match tagName f with
  | input | textarea => required f
  | select => false
  end.

(** The [forEach] over [inputs], threading [allValid]. *)
Fixpoint validateInputs (fs : list field) (errs : list (jsstring * jsstring))
    (allValid : bool) : list field * list (jsstring * jsstring) * bool :=
  match fs with
  | [] => ([], errs, allValid)
  | f :: rest =>
      if requiredInputOrTextarea f then
        let '(ok, f', errs') := validateField f errs in
        let '(rest', errs'', allValid') :=
          validateInputs rest errs' (if negb ok then false else allValid) in
        (f' :: rest', errs'', allValid')
      else
        let '(rest', errs'', allValid') := validateInputs rest errs allValid in
        (f :: rest', errs'', allValid')
  end.

(** [new FormData(form)]: names and values of the fields. *)
Definition FormData (fs : list field) : list (jsstring * jsstring) :=
  map (λ f, (name f, value f)) fs.

Inductive completion :=
| Returned
| Rejected
| AwaitSubmitContactForm (originalText : jsstring).

Definition handleContactSubmission (fm : form) : completion * form :=
  let '(fs, errs, allValid) := validateInputs (fields fm) (errorDivs fm) true in
  if negb allValid then
    (Returned,
     {| fields := fs; submitBtn := submitBtn fm; errorDivs := errs;
        announcer :=
          utils.announce (str "Please correct the errors in the form")
                         (announcer fm);
        submitContactFormCalls := submitContactFormCalls fm |})
  else
    match submitBtn fm with
    | None =>
        (Rejected,
         {| fields := fs; submitBtn := None; errorDivs := errs;
            announcer := announcer fm;
            submitContactFormCalls := submitContactFormCalls fm |})
    | Some b =>
        (AwaitSubmitContactForm (textContent b),
         {| fields := fs;
            submitBtn := Some {| disabled := true;
                                 textContent := str "Sending...";
                                 background := background b |};
            errorDivs := errs;
            announcer := announcer fm;
            submitContactFormCalls :=
              submitContactFormCalls fm ++ [FormData fs] |})
    end.

(** A required field that is empty. *)
Definition requiredAndEmpty (f : field) : bool :=
  required f && negb (truthy (trim (value f))).

End Forms.

(* ===================================================================== *)
(** ** FAQ accordion *)
(* ===================================================================== *)

Module FAQ.

(** A [.faq-item]: the [aria-expanded] attribute of its first
    [.faq-item__question] and the [aria-hidden] attribute of its first
    [.faq-item__answer].  The outer [None] is a missing element, the inner
    [None] a missing attribute. *)
Record faqItem :=
  { question : option (option jsstring);
    answer : option (option jsstring) }.

Record page := { faqItems : list faqItem; announcer : option jsstring }.

Inductive completion := Normal | TypeError.

(** The body of the inner [forEach] for an item other than the clicked
    one, and whether it threw. *)
Definition collapse (other : faqItem) : faqItem * bool :=
  match question other, answer other with
  | None, _ => (other, true)
  | Some _, None =>
      ({| question := Some (Some (str "false")); answer := None |}, true)
  | Some _, Some _ =>
      ({| question := Some (Some (str "false"));
          answer := Some (Some (str "true")) |}, false)
  end.

(** The inner [forEach], from index [j] on; it stops where [collapse]
    throws. *)
Fixpoint collapseOthers (i j : nat) (items : list faqItem)
  : list faqItem * bool :=
  match items with
  | [] => ([], false)
  | it :: rest =>
      if decide (j = i) then
        let '(rest', threw) := collapseOthers i (S j) rest in
        (it :: rest', threw)
      else
        let '(it', threw) := collapse it in
        if threw then (it' :: rest, true)
        else
          let '(rest', threw') := collapseOthers i (S j) rest in
          (it' :: rest', threw')
  end.

Definition ofBool (b : bool) : jsstring :=
  if b then str "true" else str "false".

(** The click handler of item [i]'s question; it is registered only on
    items that have both a question and an answer. *)
Definition clickQuestion (i : nat) (pg : page) : completion * page :=
  match faqItems pg !! i with
  | Some {| question := Some q; answer := Some a |} =>
      let isExpanded := bool_decide (q = Some (str "true")) in
      let '(items, threw) := collapseOthers i 0 (faqItems pg) in
      if threw then
        (TypeError, {| faqItems := items; announcer := announcer pg |})
      else
        (Normal,
         {| faqItems :=
              <[i := {| question := Some (Some (ofBool (negb isExpanded)));
                        answer := Some (Some (ofBool isExpanded)) |}]> items;
            announcer :=
              utils.announce
                (if isExpanded then str "Section collapsed"
                 else str "Section expanded") (announcer pg) |})
  | _ => (Normal, pg)
  end.

(** The keydown handler of the question: Enter and Space click it. *)
Definition keydownQuestion (key : jsstring) (i : nat) (pg : page)
  : completion * page :=
  if bool_decide (key = str "Enter") || bool_decide (key = str " ")
  then clickQuestion i pg
  else (Normal, pg).

Inductive event := Click (i : nat) | Keydown (key : jsstring) (i : nat).

Definition step (pg : page) (e : event) : completion * page :=
  match e with
  | Click i => clickQuestion i pg
  | Keydown key i => keydownQuestion key i pg
  end.

(** A thrown error ends the handler, not the page: the next event is
    handled on the state the handler left. *)
Definition run (es : list event) (pg : page) : page :=
  fold_left (λ pg e, snd (step pg e)) es pg.

Definition expanded (it : faqItem) : bool :=
  bool_decide (question it = Some (Some (str "true"))).

Definition expandedCount (pg : page) : nat :=
  length (List.filter expanded (faqItems pg)).

(** Every item has a question and an answer. *)
Definition complete (it : faqItem) : bool :=
  match question it, answer it with
  | Some _, Some _ => true
  | _, _ => false
  end.

End FAQ.

(* ===================================================================== *)
(** ** The orchestrator *)
(* ===================================================================== *)

Module PrismOfTorah.

Inductive component :=
| Navigation | AudioPlayer | Modal | Forms | FAQ | Search | ScrollEffects
| Animations | Theme | ErrorHandler | Performance.

(** The calls in the [try] block, in source order. *)
Definition order : list component :=
  [Navigation; AudioPlayer; Modal; Forms; FAQ; Search; ScrollEffects;
   Animations; Theme; ErrorHandler; Performance].

Section Orchestrator.
(** [W] is the page the components wire up, [E] the values they throw. *)
Context {W E : Type}.

(** [init c w]: the page after [c.init()] ran on [w], and what it threw if
    it threw. *)
Variable init : component → W → W * option E.

Inductive logEntry :=
| log_initialized                       (* console.log(... successfully) *)
| error_initializing (error : E).       (* console.error(..., error) *)

Record site :=
  { dom : W;
    invoked : list component;           (* the [init()] calls made so far *)
    console : list logEntry;
    announcer : option jsstring }.

(** The statements of the [try] block before the log; [Some e] when one of
    them threw [e], which ends the block. *)
Fixpoint tryInits (cs : list component) (w : W) (called : list component)
  : W * list component * option E :=
  match cs with
  | [] => (w, called, None)
  | c :: rest =>
      match init c w with
      | (w', Some e) => (w', called ++ [c], Some e)
      | (w', None) => tryInits rest w' (called ++ [c])
      end
  end.

Definition initializeComponents (s : site) : site :=
  match tryInits order (dom s) (invoked s) with
  | (w, called, None) =>
      {| dom := w; invoked := called;
         console := console s ++ [log_initialized];
         announcer := utils.announce (str "Page loaded") (announcer s) |}
  | (w, called, Some e) =>
      {| dom := w; invoked := called;
         console := console s ++ [error_initializing e];
         announcer := announcer s |}
  end.

End Orchestrator.

End PrismOfTorah.

(* ===================================================================== *)
(** ** The specification's wording, where it is compared with the code *)
(* ===================================================================== *)

Module Spec.

(** "non-whitespace-run" *)
Definition nonWhitespaceRun (s : jsstring) : Prop :=
  s ≠ [] ∧ Forall (λ c, is_space c = false) s.

(** "non-whitespace-run [@] non-whitespace-run [.] non-whitespace-run" *)
Definition emailPattern (s : jsstring) : Prop :=
  ∃ u v w, s = u ++ [AT] ++ v ++ [DOT] ++ w ∧
           nonWhitespaceRun u ∧ nonWhitespaceRun v ∧ nonWhitespaceRun w.

End Spec.

(** A run of [[^\s@]]: non-empty, no whitespace, no [@]. *)
Definition addressRun (s : jsstring) : Prop :=
  s ≠ [] ∧ Forall (λ c, is_space c = false ∧ c ≠ AT) s.

(** What the pattern of [isValidEmail] matches. *)
Definition addressPattern (s : jsstring) : Prop :=
  ∃ u v w, s = u ++ [AT] ++ v ++ [DOT] ++ w ∧
           addressRun u ∧ addressRun v ∧ addressRun w.

(* ===================================================================== *)
(** ** Concrete pages *)
(* ===================================================================== *)

Module Examples.

(** A document with an element [#about] at offset 600 and no [.header]. *)
Definition noHeader : Navigation.document :=
  {| Navigation.querySelectorId :=
       λ id, if decide (id = str "about") then Navigation.found 600
             else if decide (id = []) then Navigation.invalidSelector
             else Navigation.noMatch;
     Navigation.header := None |}.

(** Component initialisers over a page that only records which components
    are ready; [Navigation.init()] throws. *)
Definition navigationThrows (c : PrismOfTorah.component)
    (ready : list PrismOfTorah.component)
  : list PrismOfTorah.component * option string :=
  match c with
  | PrismOfTorah.Navigation => (ready, Some "TypeError"%string)
  | _ => (ready ++ [c], None)
  end.

Definition freshSite : PrismOfTorah.site (W:=list PrismOfTorah.component)
                                         (E:=string) :=
  {| PrismOfTorah.dom := []; PrismOfTorah.invoked := [];
     PrismOfTorah.console := []; PrismOfTorah.announcer := Some [] |}.

(** A player element with a play button, a progress bar, and the given
    total-time text. *)
Definition playerMarkup (total : string) : AudioPlayer.playerElement :=
  {| AudioPlayer.playBtn :=
       Some {| AudioPlayer.innerHTML := AudioPlayer.PageMarkup;
               AudioPlayer.ariaLabel := Some (str "Play episode") |};
     AudioPlayer.progressBar := Some AudioPlayer.Unset;
     AudioPlayer.currentTime := Some (str "0:00");
     AudioPlayer.totalTime := Some (str total) |}.

(** A page with two players, as [setupPlayers] leaves it. *)
Definition twoPlayers : AudioPlayer.page :=
  {| AudioPlayer.players :=
       [AudioPlayer.initializePlayer (playerMarkup "3:00");
        AudioPlayer.initializePlayer (playerMarkup "4:10")];
     AudioPlayer.announcer := Some [] |}.

(** An email-capture dialog, open, with [not-an-email] typed in. *)
Definition dialogWithBadEmail : Modal.dialog :=
  {| Modal.emailValue := Some (str "not-an-email");
     Modal.submitBtn :=
       Some {| Modal.disabled := false; Modal.textContent := str "Subscribe";
               Modal.background := [] |};
     Modal.errorDiv := Some [];
     Modal.modal := {| Modal.ariaHidden := Some (str "false");
                       Modal.display := str "flex" |};
     Modal.bodyOverflow := str "hidden";
     Modal.announcer := Some [];
     Modal.submitEmailCalls := [];
     Modal.timers := [] |}.

Definition textField (tg : Forms.tag) (ty nm : string) (req : bool)
    (v : string) : Forms.field :=
  {| Forms.tagName := tg; Forms.type := str ty; Forms.name := str nm;
     Forms.required := req; Forms.value := str v;
     Forms.ariaInvalid := None; Forms.fieldError := false |}.

Definition contactForm (fs : list Forms.field) : Forms.form :=
  {| Forms.fields := fs;
     Forms.submitBtn :=
       Some {| Forms.disabled := false; Forms.textContent := str "Send";
               Forms.background := [] |};
     Forms.errorDivs := [];
     Forms.announcer := Some [];
     Forms.submitContactFormCalls := [] |}.

(** An inquiry form: the name is filled in, the required topic [select]
    still shows its empty placeholder option. *)
Definition inquiryWithoutTopic : Forms.form :=
  contactForm
    [textField Forms.input "text" "name" true "Dina";
     textField Forms.select "select-one" "topic" true ""].

(** The same form with the required name left empty. *)
Definition inquiryWithoutName : Forms.form :=
  contactForm
    [textField Forms.input "text" "name" true "";
     textField Forms.select "select-one" "topic" true "books"].

Definition faqEntry (isExpanded : bool) : FAQ.faqItem :=
  {| FAQ.question := Some (Some (FAQ.ofBool isExpanded));
     FAQ.answer := Some (Some (FAQ.ofBool (negb isExpanded))) |}.

(** An accordion whose first item is open, and whose last [.faq-item] has a
    question but no answer element. *)
Definition faqWithBareItem : FAQ.page :=
  {| FAQ.faqItems :=
       [faqEntry true; faqEntry false;
        {| FAQ.question := Some (Some (str "false")); FAQ.answer := None |}];
     FAQ.announcer := Some [] |}.

(** An accordion of three complete items, the first one open. *)
Definition faqThree : FAQ.page :=
  {| FAQ.faqItems := [faqEntry true; faqEntry false; faqEntry false];
     FAQ.announcer := Some [] |}.

End Examples.

(* ===================================================================== *)
(** ** Timed behaviour of the handlers that set timers *)
(* ===================================================================== *)

(** Handlers whose timer callbacks only write to the page (they neither set
    nor clear timers) share this shape: [apply c w] is the page after the
    callback [c] ran on [w]. *)
Module Pure.
Section Pure.
Context {W Cb : Type}.
Variable apply : Cb → W → W.

Definition run (c : Cb) (l : loop W Cb) : loop W Cb :=
  set_world (apply c (world l)) l.

(** The page after the callbacks of the timers [ts] ran in that order. *)
Definition replay (ts : list (timer Cb)) (w : W) : W :=
  fold_left (λ w t, apply (cb t) w) ts w.

(** Timer ids are handed out once. *)
Definition distinct_ids (l : loop W Cb) : Prop := NoDup (tid <$> pending l).

(** The pending timers have distinct ids, all below the next id. *)
Definition wf (l : loop W Cb) : Prop :=
  distinct_ids l ∧ Forall (λ p, tid p < next_id l) (pending l).

End Pure.
End Pure.

(** Event times in chronological order, from time [t] on. *)
Fixpoint chronological (t : nat) (ts : list nat) : Prop :=
  match ts with
  | [] => True
  | t' :: rest => t ≤ t' ∧ chronological t' rest
  end.

(** [utils.announce] with its timer: the message is written into the live
    region, and a timer set to empty the region after 1000ms.  Without a
    live region nothing happens. *)
Module LiveRegion.

(** [() => { announcer.textContent = '' }] *)
Inductive callback := clearText.

Definition apply (c : callback) (region : option jsstring)
  : option jsstring :=
  match c with
  | clearText => Modal.write_if_present [] region
  end.

Definition announce (message : jsstring)
    (l : loop (option jsstring) callback) : loop (option jsstring) callback :=
  match world l with
  | Some _ => snd (setTimeout clearText 1000 (set_world (Some message) l))
  | None => l
  end.

(** A call of [announce] at time [t]. *)
Definition announce_at (l : loop (option jsstring) callback)
    (c : nat * jsstring) : loop (option jsstring) callback :=
  announce c.2 (run_until (Pure.run apply) c.1 l).

(** The page at time [t0], no timer pending. *)
Definition start (t0 : nat) (region : option jsstring)
  : loop (option jsstring) callback :=
  {| now := t0; next_id := 0; pending := []; world := region |}.

(** The text of the region at time [T]. *)
Definition text_at (T : nat) (l : loop (option jsstring) callback)
  : option jsstring :=
  world (run_until (Pure.run apply) T l).

(** Whether, of the announcements [cs], one whose timer was still pending
    at time [t] has its timer due by time [T]. *)
Definition erased_by (T t : nat) (cs : list (nat * jsstring)) : bool :=
  existsb (λ c, (t <? c.1 + 1000) && (c.1 + 1000 <=? T)) cs.

(** The state of the loop after the announcements [hs], the last one at
    time [tl]: the pending timers are those of the announcements made less
    than 1000ms ago. *)
Definition inv (hs : list (nat * jsstring)) (tl : nat)
    (l : loop (option jsstring) callback) : Prop :=
  now l = tl ∧ Pure.wf l ∧
  (∀ d, d ∈ due <$> pending l ↔ ∃ c, c ∈ hs ∧ d = c.1 + 1000 ∧ tl < d).

End LiveRegion.

(** [Navigation.setupDropdowns], for a dropdown item that has both its
    link and its dropdown. *)
Module Dropdown.

Record item :=
  { ariaExpanded : option jsstring;     (* of the [.nav__link] *)
    display : jsstring }.               (* [dropdown.style.display] *)

(** The callback of the 150ms timer set on [mouseleave]. *)
Inductive callback := hideIfCollapsed.

Definition apply (c : callback) (it : item) : item :=
  match c with
  | hideIfCollapsed =>
      if bool_decide (ariaExpanded it = Some (str "false"))
      then {| ariaExpanded := ariaExpanded it; display := str "none" |}
      else it
  end.

Definition mouseenter (l : loop item callback) : loop item callback :=
  set_world {| ariaExpanded := Some (str "true"); display := str "block" |} l.

Definition mouseleave (l : loop item callback) : loop item callback :=
  snd (setTimeout hideIfCollapsed 150
         (set_world {| ariaExpanded := Some (str "false");
                       display := display (world l) |} l)).

Definition keydown (key : jsstring) (l : loop item callback)
  : loop item callback :=
  if bool_decide (key = str "Enter") || bool_decide (key = str " ") then
    let isExpanded :=
      bool_decide (ariaExpanded (world l) = Some (str "true")) in
    set_world {| ariaExpanded := Some (Forms.ofBool (negb isExpanded));
                 display := if isExpanded then str "none" else str "block" |}
              l
  else l.

Inductive event := Mouseenter | Mouseleave | Keydown (key : jsstring).

Definition handle (e : event) (l : loop item callback)
  : loop item callback :=
  match e with
  | Mouseenter => mouseenter l
  | Mouseleave => mouseleave l
  | Keydown key => keydown key l
  end.

(** An event at time [t]. *)
Definition handle_at (l : loop item callback) (c : nat * event)
  : loop item callback :=
  handle c.2 (run_until (Pure.run apply) c.1 l).

Definition start (t0 : nat) (it : item) : loop item callback :=
  {| now := t0; next_id := 0; pending := []; world := it |}.

(** The item at time [T]. *)
Definition item_at (T : nat) (l : loop item callback) : item :=
  world (run_until (Pure.run apply) T l).

End Dropdown.

(** [Modal.openModal], [Modal.closeModal] and the Escape handler of
    [setupModalClose], with their timers. *)
Module ModalLifecycle.

Record window :=
  { modal : Modal.modalElement;
    hasFocusable : bool;          (* the modal has a focusable descendant *)
    focused : bool;               (* [firstFocusable.focus()] has run *)
    bodyOverflow : jsstring;
    announcer : option jsstring }.

Inductive callback :=
| focusFirst           (* [() => firstFocusable.focus()], 100ms *)
| hide                 (* [() => { modal.style.display = 'none' }], 250ms *)
| clearText.           (* the 1000ms timer of [utils.announce] *)

Definition apply (c : callback) (w : window) : window :=
  match c with
  | focusFirst =>
      {| modal := modal w; hasFocusable := hasFocusable w; focused := true;
         bodyOverflow := bodyOverflow w; announcer := announcer w |}
  | hide =>
      {| modal := {| Modal.ariaHidden := Modal.ariaHidden (modal w);
                     Modal.display := str "none" |};
         hasFocusable := hasFocusable w; focused := focused w;
         bodyOverflow := bodyOverflow w; announcer := announcer w |}
  | clearText =>
      {| modal := modal w; hasFocusable := hasFocusable w;
         focused := focused w; bodyOverflow := bodyOverflow w;
         announcer := Modal.write_if_present [] (announcer w) |}
  end.

(** [utils.announce(message)] *)
Definition announce (message : jsstring) (l : loop window callback)
  : loop window callback :=
  match announcer (world l) with
  | Some _ =>
      snd (setTimeout clearText 1000
             (set_world
                {| modal := modal (world l);
                   hasFocusable := hasFocusable (world l);
                   focused := focused (world l);
                   bodyOverflow := bodyOverflow (world l);
                   announcer := Some message |} l))
  | None => l
  end.

Definition openModal (l : loop window callback) : loop window callback :=
  let w := world l in
  let l1 :=
    set_world {| modal := {| Modal.ariaHidden := Some (str "false");
                             Modal.display := str "flex" |};
                 hasFocusable := hasFocusable w; focused := focused w;
                 bodyOverflow := str "hidden"; announcer := announcer w |}
              l in
  let l2 := if hasFocusable w then snd (setTimeout focusFirst 100 l1)
            else l1 in
  announce (str "Dialog opened") l2.

Definition closeModal (l : loop window callback) : loop window callback :=
  let w := world l in
  let l1 :=
    set_world {| modal := {| Modal.ariaHidden := Some (str "true");
                             Modal.display := Modal.display (modal w) |};
                 hasFocusable := hasFocusable w; focused := focused w;
                 bodyOverflow := bodyOverflow w; announcer := announcer w |}
              l in
  let l2 := snd (setTimeout hide 250 l1) in
  let w2 := world l2 in
  let l3 :=
    set_world {| modal := modal w2; hasFocusable := hasFocusable w2;
                 focused := focused w2; bodyOverflow := [];
                 announcer := announcer w2 |} l2 in
  announce (str "Dialog closed") l3.

(** The document's keydown handler for this modal. *)
Definition keydown (key : jsstring) (l : loop window callback)
  : loop window callback :=
  if bool_decide (key = str "Escape")
     && bool_decide (Modal.ariaHidden (modal (world l)) = Some (str "false"))
  then closeModal l
  else l.

Inductive event := Open | Close | Keydown (key : jsstring).

Definition handle (e : event) (l : loop window callback)
  : loop window callback :=
  match e with
  | Open => openModal l
  | Close => closeModal l
  | Keydown key => keydown key l
  end.

Definition handle_at (l : loop window callback) (c : nat * event)
  : loop window callback :=
  handle c.2 (run_until (Pure.run apply) c.1 l).

Definition start (t0 : nat) (w : window) : loop window callback :=
  {| now := t0; next_id := 0; pending := []; world := w |}.

Definition window_at (T : nat) (l : loop window callback) : window :=
  world (run_until (Pure.run apply) T l).

(** Whether one of the timers [ts] is a [hide] timer that is due by time
    [T]. *)
Definition hidden_by (T : nat) (ts : list (timer callback)) : bool :=
  existsb (λ tm, match cb tm with hide => due tm <=? T | _ => false end) ts.

End ModalLifecycle.

(** What [debounce] and [throttle] do with any chronological series of
    calls. *)
Module Timing.
Section Timing.
Context {A : Type}.

(** The invocations of [func] that the calls [c :: rest] of a debounced
    wrapper have led to by the time of the last call: a call leads to one,
    [wait] later, when the next call does not come before that. *)
Fixpoint settled (wait : nat) (c : nat * A) (rest : list (nat * A))
  : list (nat * A) :=
  match rest with
  | [] => []
  | c' :: rest' =>
      (if decide (c.1 + wait ≤ c'.1) then [(c.1 + wait, c.2)] else [])
      ++ settled wait c' rest'
  end.

(** The loop of a debounced wrapper right after a call at time [t] with
    [args]: the call's timer, numbered [k], is the only one pending, and
    [log] lists the invocations of [func] so far. *)
Definition waiting (wait t k : nat) (args : A) (log : list (nat * A))
  : loop (debounce.closure (A:=A)) (debounce.callback (A:=A)) :=
  {| now := t; next_id := S k;
     pending := [{| tid := k; due := t + wait; cb := debounce.later args |}];
     world := {| debounce.timeout := Some k; debounce.invoked := log |} |}.

(** The calls of a throttled wrapper that run [func], when the wrapper is
    closed until time [closed_until]. *)
Fixpoint throttled (limit closed_until : nat) (cs : list (nat * A))
  : list (nat * A) :=
  match cs with
  | [] => []
  | c :: rest =>
      if decide (closed_until ≤ c.1)
      then c :: throttled limit (c.1 + limit) rest
      else throttled limit closed_until rest
  end.

End Timing.


End Timing.



(* ===================================================================== *)
(** ** Navigation: the mobile menu *)
(* ===================================================================== *)

Module MobileMenu.

(** What [setupMobileMenu]'s handlers read and write, on a page that has
    both [.nav__toggle] and [.nav__menu]. *)
Record nav :=
  { toggleExpanded : option jsstring;   (* aria-expanded of the toggle *)
    menuExpanded : option jsstring;     (* aria-expanded of the menu *)
    toggleActive : bool;                (* class [nav__toggle--active] *)
    bodyOverflow : jsstring;
    toggleFocused : bool;               (* [toggle.focus()] has run *)
    announcer : option jsstring }.

Definition isExpanded (n : nav) : bool :=
  bool_decide (toggleExpanded n = Some (str "true")).

(** The click handler of the toggle. *)
Definition clickToggle (n : nav) : nav :=
  let expanded := isExpanded n in
  {| toggleExpanded := Some (Forms.ofBool (negb expanded));
     menuExpanded := Some (Forms.ofBool (negb expanded));
     toggleActive := negb (toggleActive n);
     bodyOverflow := if expanded then [] else str "hidden";
     toggleFocused := toggleFocused n;
     announcer :=
       utils.announce (if expanded then str "Menu closed"
                       else str "Menu opened") (announcer n) |}.

(** The document's click handler; [inside] says whether the target is in
    the toggle or in the menu. *)
Definition clickDocument (inside : bool) (n : nav) : nav :=
  if inside then n
  else {| toggleExpanded := Some (str "false");
          menuExpanded := Some (str "false");
          toggleActive := false;
          bodyOverflow := [];
          toggleFocused := toggleFocused n;
          announcer := announcer n |}.

(** The document's keydown handler. *)
Definition keydown (key : jsstring) (n : nav) : nav :=
  if bool_decide (key = str "Escape") && isExpanded n then
    {| toggleExpanded := Some (str "false");
       menuExpanded := Some (str "false");
       toggleActive := false;
       bodyOverflow := [];
       toggleFocused := true;
       announcer := announcer n |}
  else n.

(** A click on the toggle runs the toggle's handler and then, as the event
    bubbles, the document's, for which the target is inside the toggle. *)
Inductive event :=
| ClickToggle
| ClickMenu
| ClickElsewhere
| Keydown (key : jsstring).

Definition step (n : nav) (e : event) : nav :=
  match e with
  | ClickToggle => clickDocument true (clickToggle n)
  | ClickMenu => clickDocument true n
  | ClickElsewhere => clickDocument false n
  | Keydown key => keydown key n
  end.

Definition run (es : list event) (n : nav) : nav := fold_left step es n.

(** The three marks of an open menu agree: the [aria-expanded] of toggle
    and menu, the active class of the toggle, and the page scroll lock. *)
Definition consistent (n : nav) : Prop :=
  toggleActive n = isExpanded n ∧
  bool_decide (menuExpanded n = Some (str "true")) = isExpanded n ∧
  bodyOverflow n = (if isExpanded n then str "hidden" else []).

End MobileMenu.

(* ===================================================================== *)
(** ** Modal: what follows the submission of a valid address *)
(* ===================================================================== *)

Module ModalFlow.
Import Modal.

(** [closeModal(modal)], on the dialog record: its 250ms timer is noted in
    [timers]. *)
Definition closeModal (d : dialog) : dialog :=
  let d1 :=
    {| emailValue := emailValue d; submitBtn := submitBtn d;
       errorDiv := errorDiv d;
       modal := {| ariaHidden := Some (str "true");
                   display := display (modal d) |};
       bodyOverflow := bodyOverflow d; announcer := announcer d;
       submitEmailCalls := submitEmailCalls d; timers := timers d |} in
  let d2 := do_setTimeout hideModal 250 d1 in
  let d3 :=
    {| emailValue := emailValue d2; submitBtn := submitBtn d2;
       errorDiv := errorDiv d2; modal := modal d2; bodyOverflow := [];
       announcer := announcer d2; submitEmailCalls := submitEmailCalls d2;
       timers := timers d2 |} in
  do_announce (str "Dialog closed") d3.

(** The callback of the 2000ms timer set after a successful submission:
    [closeModal(modal); form.reset(); ...].  [defaultEmail] is the value
    the email input is reset to. *)
Definition closeAndRestore (defaultEmail originalText : jsstring)
    (d : dialog) : dialog :=
  let d1 := closeModal d in
  let d2 :=
    {| emailValue := (λ _, defaultEmail) <$> emailValue d1;
       submitBtn := submitBtn d1; errorDiv := errorDiv d1;
       modal := modal d1; bodyOverflow := bodyOverflow d1;
       announcer := announcer d1; submitEmailCalls := submitEmailCalls d1;
       timers := timers d1 |} in
  set_submitBtn
    ((λ b, {| disabled := false; textContent := originalText;
              background := [] |}) <$> submitBtn d2) d2.

(** A whole submission: the handler up to the [await], the settling of
    the promise, and for a fulfilled promise the 2000ms callback. *)
Definition submitAndSettle (resolved : bool) (defaultEmail : jsstring)
    (d : dialog) : completion * dialog :=
  match handleEmailSubmission d with
  | (AwaitSubmitEmail originalText, d1) =>
      let d2 := afterSubmitEmail resolved originalText d1 in
      (Returned,
       if resolved then closeAndRestore defaultEmail originalText d2 else d2)
  | other => other
  end.

End ModalFlow.

(* ===================================================================== *)
(** ** Forms: the newsletter form *)
(* ===================================================================== *)

Module Newsletter.

Record form :=
  { emailField : option Forms.field;            (* [input[type="email"]] *)
    submitBtn : option Forms.submitButton;
    errorDivs : list (jsstring * jsstring);
    announcer : option jsstring;
    submitEmailCalls : list jsstring }.          (* [Modal.submitEmail] *)

Inductive completion :=
| Returned
| Rejected
| AwaitSubmitEmail (originalText : jsstring).


End Newsletter.


(* ===================================================================== *)
(** ** ScrollEffects *)
(* ===================================================================== *)

Module ScrollEffects.

(** Scroll offsets are fractions of a pixel. *)
Definition offset := QArith_base.Q.
Definition px (n : Z) : offset := QArith_base.Qmake n 1.

(** [a > b] *)
Definition gt (a b : offset) : bool :=
  if QArith_base.Qlt_le_dec b a then true else false.

(** The callback of [setupScrollToTop]: the class [visible] of the button
    after the callback read the offset [y]. *)
Definition toggleVisibility (y : offset) (visible : bool) : bool :=
  if gt y (px 300) then true else false.

Record header :=
  { scrolled : bool;           (* class [header--scrolled] *)
    hidden : bool;             (* class [header--hidden] *)
    lastScroll : offset }.

(** The callback of [setupHeaderScroll], on the offset [currentScroll]. *)
Definition handleScroll (currentScroll : offset) (h : header) : header :=
  {| scrolled := if gt currentScroll (px 100) then true else false;
     hidden := if gt currentScroll (lastScroll h)
                  && gt currentScroll (px 200)
               then true else false;
     lastScroll := currentScroll |}.

(** The button after the scroll events [cs] (time and offset of each),
    through the 100ms throttle. *)
Definition buttonAfter (t0 : nat) (cs : list (nat * offset)) (visible : bool)
  : bool :=
  fold_left (λ v c, toggleVisibility c.2 v)
    (throttle.invoked (world (throttle.run_calls 100 cs (throttle.init t0))))
    visible.

(** The header after the scroll events [cs], through the 10ms throttle. *)
Definition headerAfter (t0 : nat) (cs : list (nat * offset)) (h : header)
  : header :=
  fold_left (λ h c, handleScroll c.2 h)
    (throttle.invoked (world (throttle.run_calls 10 cs (throttle.init t0))))
    h.

End ScrollEffects.

(* ===================================================================== *)
(** ** AudioPlayer: what a listener sees of one player *)
(* ===================================================================== *)

Module Playback.
Import AudioPlayer.

(** The progress counter and duration of the closure, the width of the
    progress bar and the text of the current-time element. *)
Definition timeline (p : player)
  : option (Z * num) * option width * option jsstring :=
  ((λ c, (progress c, duration c)) <$> state p,
   progressBar (element p), currentTime (element p)).

(** [!(progress < duration)]: the test of [updateProgress] fails whether or
    not the player is playing. *)
Definition finished (p : player) : bool :=
  match state p with
  | Some c => negb (num_ltb (Int (progress c)) (duration c))
  | None => true
  end.

(** A page with one player whose total time reads [total]. *)
Definition single (total : string) : page :=
  {| players := [initializePlayer (Examples.playerMarkup total)];
     announcer := Some [] |}.

End Playback.

(* ===================================================================== *)
(** ** Search: the live search *)
(* ===================================================================== *)

Module Search.

(** The debounced [input] handler, run on the input's value [value]:
    [queries] lists the arguments [performSearch] was called with. *)
Definition liveSearch (value : jsstring) (queries : list jsstring)
  : list jsstring :=
  if 2 <? length value then queries ++ [value] else queries.

(** The queries searched for by time [T], after the [input] events [cs]
    (time of the event and value of the input), through the 500ms
    debounce.  The handler runs 500ms after the last event, when the input
    still holds the value it had at that event. *)
Definition searchesAt (T t0 : nat) (cs : list (nat * jsstring))
  : list jsstring :=
  fold_left (λ qs c, liveSearch c.2 qs)
    (debounce.invoked
       (world (run_until debounce.run T
                 (debounce.run_calls 500 cs (debounce.init t0)))))
    [].

End Search.

(* ===================================================================== *)
(** * Properties *)
(* ===================================================================== *)

(** ** The matcher computes membership in the pattern's language *)

Section RegexFacts.

Lemma lang_void_inv s : lang Void s → False.
Proof. inversion 1. Qed.

Lemma lang_eps_inv s : lang Eps s → s = [].
Proof. by inversion 1. Qed.

Lemma lang_class_inv p s : lang (Class p) s → ∃ c, s = [c] ∧ p c = true.
Proof. inversion 1; subst; eauto. Qed.

Lemma lang_cat_inv r1 r2 s :
  lang (Cat r1 r2) s → ∃ u v, s = u ++ v ∧ lang r1 u ∧ lang r2 v.
Proof. inversion 1; subst; eauto. Qed.

Lemma lang_alt_inv r1 r2 s : lang (Alt r1 r2) s → lang r1 s ∨ lang r2 s.
Proof. inversion 1; subst; auto. Qed.

(** A non-empty word of [r*] starts with a non-empty word of [r]. *)
Lemma lang_star_cons_inv_gen r' w :
  lang r' w →
  ∀ r c s, r' = Star r → w = c :: s →
    ∃ u v, s = u ++ v ∧ lang r (c :: u) ∧ lang (Star r) v.
Proof.
  induction 1 as [| | | | | |r0 u v Hu _ Hv IHv]; intros rr cc ss Hr Hw;
    try discriminate.
  injection Hr as ->.
  destruct u as [|c' u']; simpl in Hw.
  - by apply IHv.
  - injection Hw as -> <-. eauto.
Qed.

Lemma lang_star_cons_inv r c s :
  lang (Star r) (c :: s) →
  ∃ u v, s = u ++ v ∧ lang r (c :: u) ∧ lang (Star r) v.
Proof. intros H. by eapply lang_star_cons_inv_gen. Qed.

Lemma nullable_lang r : nullable r = true ↔ lang r [].
Proof.
  induction r as [| |p|r1 IH1 r2 IH2|r1 IH1 r2 IH2|r IH]; simpl.
  - split; [discriminate | by intros ?%lang_void_inv].
  - split; [constructor | done].
  - split; [discriminate | by intros (c & ? & _)%lang_class_inv].
  - rewrite andb_true_iff, IH1, IH2. split.
    + intros [H1 H2]. by apply (lang_cat _ _ [] []).
    + intros (u & v & Huv & H1 & H2)%lang_cat_inv.
      symmetry in Huv. apply app_eq_nil in Huv as [-> ->]. done.
  - rewrite orb_true_iff, IH1, IH2. split.
    + intros [H|H]; [by apply lang_alt_l | by apply lang_alt_r].
    + apply lang_alt_inv.
  - split; [constructor | done].
Qed.

Lemma deriv_lang c r s : lang (deriv c r) s ↔ lang r (c :: s).
Proof.
  revert s.
  induction r as [| |p|r1 IH1 r2 IH2|r1 IH1 r2 IH2|r IH]; intros s; simpl.
  - split; intros H; by apply lang_void_inv in H.
  - split; intros H; [by apply lang_void_inv in H | by apply lang_eps_inv in H].
  - destruct (p c) eqn:Hp; split; intros H.
    + apply lang_eps_inv in H as ->. by constructor.
    + apply lang_class_inv in H as (c' & [= -> ->] & _). constructor.
    + by apply lang_void_inv in H.
    + apply lang_class_inv in H as (c' & [= -> ->] & Hc). congruence.
  - assert (Hcat : lang (Cat (deriv c r1) r2) s →
                   lang (Cat r1 r2) (c :: s)).
    { intros (u & v & -> & H1 & H2)%lang_cat_inv.
      apply IH1 in H1. by apply (lang_cat _ _ (c :: u) v). }
    assert (Hinv : lang (Cat r1 r2) (c :: s) →
                   lang (Cat (deriv c r1) r2) s ∨
                   (lang r1 [] ∧ lang r2 (c :: s))).
    { intros (u & v & Huv & H1 & H2)%lang_cat_inv.
      destruct u as [|c' u']; simpl in Huv.
      - subst v. by right.
      - injection Huv as <- ->. left. constructor; [by apply IH1 | done]. }
    destruct (nullable r1) eqn:Hn; split; intros H.
    + apply lang_alt_inv in H as [H|H]; [by apply Hcat |].
      apply (lang_cat _ _ [] (c :: s)); [by apply nullable_lang |].
      by apply IH2.
    + apply Hinv in H as [H|[_ H]]; [by apply lang_alt_l |].
      apply lang_alt_r. by apply IH2.
    + by apply Hcat.
    + apply Hinv in H as [H|[H _]]; [done |].
      apply nullable_lang in H. congruence.
  - split; intros H.
    + apply lang_alt_inv in H as [H|H];
        [apply lang_alt_l; by apply IH1 | apply lang_alt_r; by apply IH2].
    + apply lang_alt_inv in H as [H|H];
        [apply lang_alt_l; by apply IH1 | apply lang_alt_r; by apply IH2].
  - split; intros H.
    + apply lang_cat_inv in H as (u & v & -> & H1 & H2).
      apply IH in H1. by apply (lang_star_app _ (c :: u) v).
    + apply lang_star_cons_inv in H as (u & v & -> & H1 & H2).
      constructor; [by apply IH | done].
Qed.

Lemma test_anchored_lang r s : test_anchored r s = true ↔ lang r s.
Proof.
  revert r. induction s as [|c s IH]; intros r; simpl.
  - apply nullable_lang.
  - by rewrite IH, deriv_lang.
Qed.

(** [[p]*] and [[p]+] are the runs of code units in the class. *)
Lemma lang_star_class p s :
  lang (Star (Class p)) s ↔ Forall (λ c, p c = true) s.
Proof.
  split.
  - remember (Star (Class p)) as r eqn:Hr. intros H.
    induction H as [| | | | | |r0 u v Hu _ Hv IHv]; try discriminate.
    + constructor.
    + injection Hr as ->.
      apply lang_class_inv in Hu as (c & -> & Hc).
      constructor; [done | by apply IHv].
  - induction 1 as [|c s Hc _ IH]; [constructor |].
    apply (lang_star_app _ [c] s); [by constructor | done].
Qed.

Lemma lang_plus_class p s :
  lang (Plus (Class p)) s ↔ s ≠ [] ∧ Forall (λ c, p c = true) s.
Proof.
  unfold Plus. split.
  - intros (u & v & -> & Hu & Hv)%lang_cat_inv.
    apply lang_class_inv in Hu as (c & -> & Hc).
    apply lang_star_class in Hv. split; [done | by constructor].
  - intros [Hne Hall]. destruct Hall as [|c s Hc Hs]; [done |].
    apply (lang_cat _ _ [c] s); [by constructor | by apply lang_star_class].
Qed.

Lemma lang_chr c s : lang (Chr c) s ↔ s = [c].
Proof.
  unfold Chr. split.
  - intros (c' & -> & Hc)%lang_class_inv. apply N.eqb_eq in Hc. by subst.
  - intros ->. constructor. apply N.eqb_refl.
Qed.

End RegexFacts.

(** ** utils.isValidEmail *)

Section IsValidEmail.
Import utils.

Lemma not_space_at_true c :
  not_space_at c = true ↔ is_space c = false ∧ c ≠ AT.
Proof.
  unfold not_space_at.
  rewrite negb_true_iff, orb_false_iff, N.eqb_neq. done.
Qed.

Lemma lang_address_run s : lang (Plus (Class not_space_at)) s ↔ addressRun s.
Proof.
  rewrite lang_plus_class. unfold addressRun.
  split; intros [Hne Hall]; (split; [done |]);
    eapply Forall_impl; eauto; intros c Hc; by apply not_space_at_true.
Qed.

Lemma isValidEmail_addressPattern s :
  isValidEmail s = true ↔ addressPattern s.
Proof.
  unfold isValidEmail, emailRegex, addressPattern.
  rewrite test_anchored_lang. split.
  - intros (u & s1 & -> & Hu & H1)%lang_cat_inv.
    apply lang_cat_inv in H1 as (a & s2 & -> & Ha & H2).
    apply lang_cat_inv in H2 as (v & s3 & -> & Hv & H3).
    apply lang_cat_inv in H3 as (d & w & -> & Hd & Hw).
    apply lang_chr in Ha as ->. apply lang_chr in Hd as ->.
    exists u, v, w. by rewrite <- !lang_address_run.
  - intros (u & v & w & -> & Hu & Hv & Hw).
    rewrite <- lang_address_run in Hu, Hv, Hw.
    repeat (apply lang_cat; [done || by apply lang_chr |]). done.
Qed.

(** An address run is in particular a non-whitespace run, so the code's
    pattern is contained in the specification's. *)
Lemma addressRun_nonWhitespaceRun s : addressRun s → Spec.nonWhitespaceRun s.
Proof.
  intros [Hne Hall]. split; [done |].
  eapply Forall_impl; [| exact Hall]. by intros c [? _].
Qed.

Lemma addressPattern_emailPattern s : addressPattern s → Spec.emailPattern s.
Proof.
  intros (u & v & w & -> & Hu & Hv & Hw). exists u, v, w.
  split; [done |]. repeat split; by apply addressRun_nonWhitespaceRun.
Qed.

(** C4 (as the code has it): [isValidEmail s] is true exactly when [s] is a
    run, ['@'], a run, ['.'], a run, where a run is a non-empty sequence of
    code units that are neither whitespace nor ['@']; it accepts ["a@b.co"]
    and rejects ["a@b"], ["a b@c.com"] and the empty string. *)
Theorem isValidEmail_correct :
  (∀ s, isValidEmail s = true ↔ addressPattern s) ∧
  isValidEmail (str "a@b.co") = true ∧
  isValidEmail (str "a@b") = false ∧
  isValidEmail (str "a b@c.com") = false ∧
  isValidEmail (str "") = false.
Proof.
  split; [apply isValidEmail_addressPattern |].
  repeat split; reflexivity.
Qed.

(** C4 as the specification words it fails: ["a@@b.co"] is a non-whitespace
    run ["a@"], ['@'], a run ["b"], ['.'], a run ["co"], and [isValidEmail]
    rejects it. *)
Lemma isValidEmail_rejects_second_at :
  ¬ (∀ s, isValidEmail s = true ↔ Spec.emailPattern s).
Proof.
  intros H. specialize (H (str "a@@b.co")).
  assert (Hpat : Spec.emailPattern (str "a@@b.co")).
  { exists (str "a@"), (str "b"), (str "co").
    split; [reflexivity |].
    repeat split; try discriminate; repeat constructor. }
  apply H in Hpat. vm_compute in Hpat. discriminate.
Qed.

(** [formatTime(65)] is ["1:05"], [formatTime(5)] is ["0:05"],
    [formatTime(0)] is ["0:00"]. *)
Lemma formatTime_examples :
  formatTime 65 = str "1:05" ∧ formatTime 5 = str "0:05"
  ∧ formatTime 0 = str "0:00".
Proof. repeat split; reflexivity. Qed.

End IsValidEmail.

(** ** The event loop *)

Section LoopFacts.
Context {W Cb : Type} (run : Cb → loop W Cb → loop W Cb).
Implicit Types (l : loop W Cb) (tm : timer Cb).

Lemma filter_none {A} (P : A → Prop) `{∀ x, Decision (P x)} (xs : list A) :
  Forall (λ x, ¬ P x) xs → filter P xs = [].
Proof.
  induction 1 as [|x xs Hx _ IH]; [done |].
  by rewrite filter_cons_False.
Qed.

(** Nothing runs while every pending timer is due later. *)
Lemma fire_due_quiet l :
  Forall (λ tm, now l < due tm) (pending l) → fire_due run l = l.
Proof.
  intros H. unfold fire_due. rewrite filter_none; [done |].
  eapply Forall_impl; [| exact H]. simpl. lia.
Qed.

Lemma advance_quiet n l :
  Forall (λ tm, now l + n < due tm) (pending l) →
  advance run n l = set_now (now l + n) l.
Proof.
  revert l. induction n as [|n IH]; intros l H; simpl.
  - destruct l; unfold set_now; simpl. f_equal. lia.
  - unfold tick. rewrite fire_due_quiet.
    + rewrite IH; simpl.
      * unfold set_now; simpl. f_equal. lia.
      * eapply Forall_impl; [| exact H]. simpl. lia.
    + simpl. eapply Forall_impl; [| exact H]. simpl. lia.
Qed.

Lemma run_until_quiet t l :
  now l ≤ t → Forall (λ tm, t < due tm) (pending l) →
  run_until run t l = set_now t l.
Proof.
  intros Ht H. unfold run_until.
  rewrite fire_due_quiet by (eapply Forall_impl; [| exact H]; simpl; lia).
  rewrite advance_quiet by (eapply Forall_impl; [| exact H]; simpl; lia).
  f_equal. lia.
Qed.

Lemma advance_add n m l :
  advance run (n + m) l = advance run m (advance run n l).
Proof. revert l. induction n as [|n IH]; intros l; simpl; [done | apply IH]. Qed.

(** With a single timer pending, the loop runs its callback at the time it
    is due, provided the callback leaves no timer behind. *)
Lemma fire_due_single l tm :
  pending l = [tm] → due tm ≤ now l →
  fire_due run l = run (cb tm) (clearTimeout (Some (tid tm)) l).
Proof.
  intros Hp Hd. unfold fire_due. rewrite Hp.
  rewrite filter_cons_True by done. rewrite filter_nil. simpl.
  rewrite Hp. rewrite decide_True; [done |]. by constructor.
Qed.

Lemma clearTimeout_single l tm :
  pending l = [tm] →
  clearTimeout (Some (tid tm)) l =
  {| now := now l; next_id := next_id l; pending := []; world := world l |}.
Proof.
  intros Hp. unfold clearTimeout. rewrite Hp.
  rewrite filter_cons_False by (intros ?; done). by rewrite filter_nil.
Qed.

Lemma run_until_single t l tm :
  pending l = [tm] → now l ≤ due tm → due tm ≤ t →
  let l1 := run (cb tm)
              {| now := due tm; next_id := next_id l; pending := [];
                 world := world l |} in
  pending l1 = [] → now l1 = due tm →
  run_until run t l = set_now t l1.
Proof.
  intros Hp Hlo Hhi l1 Hp1 Hn1. unfold run_until.
  destruct (decide (due tm = now l)) as [Heq|Hne].
  - rewrite (fire_due_single l tm) by (done || lia).
    rewrite clearTimeout_single by done.
    rewrite <- Heq. fold l1.
    rewrite advance_quiet by (rewrite Hp1; constructor).
    f_equal. lia.
  - rewrite fire_due_quiet by (rewrite Hp; repeat constructor; lia).
    replace (t - now l) with ((due tm - now l - 1) + (1 + (t - due tm))) by lia.
    rewrite advance_add.
    rewrite (advance_quiet (due tm - now l - 1) l)
      by (rewrite Hp; repeat constructor; lia).
    rewrite advance_add. simpl advance at 2. unfold tick.
    rewrite (fire_due_single _ tm) by (simpl; done || lia).
    rewrite clearTimeout_single by done. simpl.
    replace (S (now l + (due tm - now l - 1))) with (due tm) by lia.
    fold l1.
    rewrite advance_quiet by (rewrite Hp1; constructor).
    f_equal. lia.
Qed.

End LoopFacts.

(** ** utils.debounce *)

Section DebounceFacts.
Context {A : Type} (wait : nat).
Implicit Types (a : A) (rest : list (nat * A)).

Lemma last_cons_default {B} (x d : B) (xs : list B) :
  List.last (x :: xs) d = List.last xs x.
Proof.
  revert x d. induction xs as [|y xs IH]; intros x d; [done |].
  change (List.last (y :: xs) d = List.last (y :: xs) x). by rewrite !IH.
Qed.

Lemma debounce_first_call t0 t a :
  t0 ≤ t → debounce.call_at wait (debounce.init t0) (t, a)
           = debounce.armed wait t 0 a.
Proof.
  intros Ht. unfold debounce.call_at. simpl.
  rewrite run_until_quiet by (simpl; done || constructor).
  reflexivity.
Qed.

Lemma debounce_next_call t k a t' a' :
  t ≤ t' → t' < t + wait →
  debounce.call_at wait (debounce.armed wait t k a) (t', a')
  = debounce.armed wait t' (S k) a'.
Proof.
  intros Hlo Hhi. unfold debounce.call_at. simpl.
  rewrite run_until_quiet by (simpl; done || (repeat constructor; simpl; lia)).
  unfold debounce.executedFunction, debounce.armed. simpl.
  rewrite filter_cons_False by (simpl; intros ?; done).
  reflexivity.
Qed.

Lemma debounce_run_calls t k a rest :
  burst wait t rest.*1 →
  debounce.run_calls wait rest (debounce.armed wait t k a)
  = debounce.armed wait (List.last rest (t, a)).1 (k + length rest)
                        (List.last rest (t, a)).2.
Proof.
  revert t k a. induction rest as [|[t' a'] rest IH]; intros t k a Hb.
  - simpl. by rewrite Nat.add_0_r.
  - destruct Hb as (Hlo & Hhi & Hb). unfold debounce.run_calls in *.
    cbn [fold_left]. rewrite debounce_next_call by done.
    rewrite IH by done.
    replace (S k + length rest) with (k + length ((t', a') :: rest))
      by (simpl; lia).
    by rewrite last_cons_default.
Qed.

(** An armed wrapper left alone runs [func] once, when the timer is due. *)
Lemma debounce_run_until t k a T :
  t ≤ T →
  debounce.invoked
    (world (run_until (debounce.run (A:=A)) T (debounce.armed wait t k a)))
  = if T <? t + wait then [] else [(t + wait, a)].
Proof.
  intros HT. destruct (Nat.ltb_spec T (t + wait)) as [Hlt|Hge].
  - rewrite run_until_quiet by (simpl; done || (repeat constructor; simpl; lia)).
    reflexivity.
  - erewrite run_until_single with (tm := {| tid := k; due := t + wait;
                                             cb := debounce.later a |});
      try done; simpl; lia.
Qed.

(** C7: a burst of calls of the debounced wrapper, each less than [wait]
    after the one before it, runs [func] exactly once: not during the
    calls, and then at [wait] after the last call, with the last call's
    arguments. *)
Theorem debounce_burst t0 t1 a1 rest :
  t0 ≤ t1 →
  burst wait t1 rest.*1 →
  let last_call := List.last rest (t1, a1) in
  let l := debounce.run_calls wait ((t1, a1) :: rest) (debounce.init t0) in
  debounce.invoked (world l) = [] ∧
  ∀ T, last_call.1 ≤ T →
    debounce.invoked (world (run_until (debounce.run (A:=A)) T l))
    = if T <? last_call.1 + wait then []
      else [(last_call.1 + wait, last_call.2)].
Proof.
  intros Ht0 Hb last_call l.
  assert (Hl : l = debounce.armed wait last_call.1 (0 + length rest)
                                       last_call.2).
  { unfold l, debounce.run_calls. cbn [fold_left].
    rewrite debounce_first_call by done.
    by apply debounce_run_calls. }
  rewrite Hl. split; [reflexivity |].
  intros T HT. by apply debounce_run_until.
Qed.

End DebounceFacts.

(** A burst of three calls 40ms apart, debounced by 100ms. *)
Lemma debounce_burst_witness :
  debounce.invoked
    (world (run_until (debounce.run (A:=nat)) 500
              (debounce.run_calls 100 [(10, 1); (50, 2); (90, 3)]
                 (debounce.init 0))))
  = [(190, 3)].
Proof.
  apply (proj2 (debounce_burst 100 0 10 1 [(50, 2); (90, 3)]
                  ltac:(lia) ltac:(simpl; lia)) 500).
  simpl. lia.
Defined.

(** ** utils.throttle *)

Section ThrottleFacts.
Context {A : Type} (limit : nat).
Implicit Types (a : A) (rest log : list (nat * A)).

Lemma throttle_first_call t0 t a :
  t0 ≤ t → throttle.call_at limit (throttle.init t0) (t, a)
           = throttle.held limit t 0 [(t, a)] t.
Proof.
  intros Ht. unfold throttle.call_at. simpl.
  rewrite run_until_quiet by (simpl; done || constructor).
  reflexivity.
Qed.

(** A call inside the window is discarded. *)
Lemma throttle_call_inside t1 k log t t' a' :
  t ≤ t' → t' < t1 + limit →
  throttle.call_at limit (throttle.held limit t1 k log t) (t', a')
  = throttle.held limit t1 k log t'.
Proof.
  intros Hlo Hhi. unfold throttle.call_at. simpl.
  rewrite run_until_quiet by (simpl; done || (repeat constructor; simpl; lia)).
  reflexivity.
Qed.

(** A call after the window runs [func] at once and closes the wrapper
    again. *)
Lemma throttle_call_after t1 k log t t' a' :
  t ≤ t1 + limit → t1 + limit ≤ t' →
  throttle.call_at limit (throttle.held limit t1 k log t) (t', a')
  = throttle.held limit t' (S k) (log ++ [(t', a')]) t'.
Proof.
  intros Hlo Hhi. unfold throttle.call_at. simpl.
  erewrite run_until_single with (tm := {| tid := k; due := t1 + limit;
                                           cb := throttle.release |});
    try done; simpl; lia.
Qed.



End ThrottleFacts.


(** ** Navigation: smooth scrolling *)

Section SmoothScrolling.
Import Navigation.

(** C10: on a click on a fragment link whose target exists, the handler
    reads [offsetHeight] of [utils.$('.header')] without a null check:
    with no [.header] in the document it throws a [TypeError] (after
    [preventDefault], before any scrolling); [|| 0] only replaces a
    header height of 0. *)
Theorem clickScrollLink_needs_header href d offsetTop :
  querySelectorId d (substring1 href) = found offsetTop →
  (header d = None →
   clickScrollLink href d
   = (TypeError, {| defaultPrevented := true; scrolledTo := None;
                    focusScheduled := false |})) ∧
  (∀ h, header d = Some h →
   clickScrollLink href d
   = (Normal, {| defaultPrevented := true;
                 scrolledTo := Some (offsetTop - or_zero h - 20)%Z;
                 focusScheduled := true |})).
Proof.
  intros Ht. unfold clickScrollLink. rewrite Ht.
  split; [intros -> | intros h ->]; reflexivity.
Qed.

End SmoothScrolling.

(** A click on [<a href="#about">] in a document without a header. *)
Lemma clickScrollLink_needs_header_witness :
  (Navigation.clickScrollLink (str "#about") Examples.noHeader).1
  = Navigation.TypeError.
Proof.
  pose proof (clickScrollLink_needs_header (str "#about") Examples.noHeader
                600%Z ltac:(reflexivity)) as [H _].
  rewrite H; reflexivity.
Defined.

(** ** The orchestrator *)

Section Orchestrator.
Import PrismOfTorah.
Context {W E : Type} (init : component → W → W * option E).

Lemma tryInits_app pre rest w called :
  tryInits init (pre ++ rest) w called =
  match tryInits init pre w called with
  | (w1, called1, None) => tryInits init rest w1 called1
  | thrown => thrown
  end.
Proof.
  revert w called. induction pre as [|c pre IH]; intros w called; simpl.
  - done.
  - destruct (init c w) as [w' [e|]]; [done | apply IH].
Qed.

(** When nothing throws, every [init()] of the list has been called. *)
Lemma tryInits_completed cs w called w' called' :
  tryInits init cs w called = (w', called', None) → called' = called ++ cs.
Proof.
  revert w called. induction cs as [|c cs IH]; intros w called; simpl.
  - intros [= _ <-]. by rewrite app_nil_r.
  - destruct (init c w) as [w1 [e|]]; [done |].
    intros H%IH. by rewrite <- app_assoc in H.
Qed.

(** C1 (as the code has it): when the [init()] of component [c] throws, the
    error is caught and logged and [initializeComponents] returns; the
    components listed before [c] have been initialised, those listed after
    [c] are not, and the success log and announcement are skipped. *)
Theorem initializeComponents_stops_at_throw s pre c post w1 w2 e :
  order = pre ++ c :: post →
  tryInits init pre (dom s) (invoked s) = (w1, invoked s ++ pre, None) →
  init c w1 = (w2, Some e) →
  initializeComponents init s
  = {| dom := w2;
       invoked := invoked s ++ pre ++ [c];
       console := console s ++ [error_initializing e];
       announcer := announcer s |}.
Proof.
  intros Horder Hpre Hc. unfold initializeComponents.
  rewrite Horder, tryInits_app, Hpre. simpl. rewrite Hc.
  by rewrite <- app_assoc.
Qed.

(** When no [init()] throws, all eleven are called, in order. *)
Lemma initializeComponents_all s w called :
  tryInits init order (dom s) (invoked s) = (w, called, None) →
  initializeComponents init s
  = {| dom := w; invoked := invoked s ++ order;
       console := console s ++ [log_initialized];
       announcer := utils.announce (str "Page loaded") (announcer s) |}.
Proof.
  intros H. unfold initializeComponents. rewrite H.
  by rewrite (tryInits_completed _ _ _ _ _ H).
Qed.

End Orchestrator.

(** [Modal.init()] throws after [Navigation] and [AudioPlayer] came up. *)
Lemma initializeComponents_stops_at_throw_witness :
  PrismOfTorah.invoked
    (PrismOfTorah.initializeComponents
       (λ c (w : nat),
          match c with
          | PrismOfTorah.Modal => (w, Some 7)
          | _ => (S w, None)
          end)
       {| PrismOfTorah.dom := 0; PrismOfTorah.invoked := [];
          PrismOfTorah.console := []; PrismOfTorah.announcer := None |})
  = [PrismOfTorah.Navigation; PrismOfTorah.AudioPlayer; PrismOfTorah.Modal].
Proof.
  erewrite (initializeComponents_stops_at_throw _ _
              [PrismOfTorah.Navigation; PrismOfTorah.AudioPlayer]
              PrismOfTorah.Modal);
    reflexivity.
Defined.

(** C1 as stated fails: with a throwing [Navigation.init()], the error is
    caught and logged, but no later component is initialised. *)
Lemma init_after_throw_skipped :
  let s := PrismOfTorah.initializeComponents Examples.navigationThrows
             Examples.freshSite in
  PrismOfTorah.console s = [PrismOfTorah.error_initializing "TypeError"%string]
  ∧ PrismOfTorah.invoked s = [PrismOfTorah.Navigation]
  ∧ (PrismOfTorah.AudioPlayer ∉ PrismOfTorah.invoked s)
  ∧ PrismOfTorah.dom s = [].
Proof.
  simpl. repeat split; try reflexivity.
  intros H. apply list_elem_of_In in H. simpl in H.
  destruct H as [H|[]]. discriminate.
Qed.

(** ** Modal: the email-capture submission *)

Section EmailSubmission.
Import Modal.

(** C5: a submission whose email value fails [isValidEmail] returns without
    calling [submitEmail] and without suspending; the modal, the page
    scroll lock, the submit button, the input and the timers are as before
    (the modal stays open); the inline error element, when the form has
    one, reads "Please enter a valid email address", and the same message
    is announced. *)
Theorem handleEmailSubmission_invalid d email :
  emailValue d = Some email →
  utils.isValidEmail email = false →
  let msg := str "Please enter a valid email address" in
  let d' := (handleEmailSubmission d).2 in
  (handleEmailSubmission d).1 = Returned ∧
  submitEmailCalls d' = submitEmailCalls d ∧
  modal d' = modal d ∧ isOpen d' = isOpen d ∧
  bodyOverflow d' = bodyOverflow d ∧
  submitBtn d' = submitBtn d ∧
  emailValue d' = emailValue d ∧
  timers d' = timers d ∧
  errorDiv d' = write_if_present msg (errorDiv d) ∧
  (∀ old, errorDiv d = Some old → errorDiv d' = Some msg) ∧
  announcer d' = utils.announce msg (announcer d).
Proof.
  intros He Hbad. unfold handleEmailSubmission. rewrite He, Hbad. simpl.
  split_and!; try done.
  - by destruct (errorDiv d).
  - by intros old ->.
Qed.

(** A valid address does reach [submitEmail], so the guard above is what
    keeps an invalid one away from it. *)
Lemma handleEmailSubmission_valid d email b :
  emailValue d = Some email →
  utils.isValidEmail email = true →
  submitBtn d = Some b →
  (handleEmailSubmission d).1 = AwaitSubmitEmail (textContent b) ∧
  submitEmailCalls (handleEmailSubmission d).2 = submitEmailCalls d ++ [email].
Proof.
  intros He Hok Hb. unfold handleEmailSubmission. rewrite He, Hok. simpl.
  rewrite Hb. done.
Qed.

End EmailSubmission.

(** Submitting [not-an-email] from the open dialog. *)
Lemma handleEmailSubmission_invalid_witness :
  (Modal.handleEmailSubmission Examples.dialogWithBadEmail).1 = Modal.Returned
  ∧ Modal.submitEmailCalls
      (Modal.handleEmailSubmission Examples.dialogWithBadEmail).2 = []
  ∧ Modal.isOpen (Modal.handleEmailSubmission Examples.dialogWithBadEmail).2
    = true.
Proof.
  pose proof (handleEmailSubmission_invalid Examples.dialogWithBadEmail
                (str "not-an-email") ltac:(reflexivity) ltac:(reflexivity))
    as (H1 & H2 & _ & H3 & _).
  split; [exact H1 |]. split; [exact H2 | exact H3].
Defined.

(** ** Forms: the contact form *)

Section ContactSubmission.
Import Forms.

(** Whether a field is valid does not depend on the error elements. *)
Lemma validateField_valid f errs :
  (validateField f errs).1.1 = (validateField f []).1.1.
Proof.
  unfold validateField.
  destruct (required f && negb (truthy (trim (value f))));
    destruct (bool_decide (type f = str "email") && truthy (value f)
              && negb (utils.isValidEmail (value f))); reflexivity.
Qed.

(** A required field that is empty is invalid. *)
Lemma validateField_requiredAndEmpty f errs :
  requiredAndEmpty f = true → (validateField f errs).1.1 = false.
Proof.
  unfold requiredAndEmpty, validateField. intros ->.
  destruct (bool_decide (type f = str "email") && truthy (value f)
            && negb (utils.isValidEmail (value f))); reflexivity.
Qed.

(** [allValid] never turns true again, and it turns false at an invalid
    required input or textarea. *)
Lemma validateInputs_false fs errs : (validateInputs fs errs false).2 = false.
Proof.
  revert errs. induction fs as [|f fs IH]; intros errs; simpl; [done |].
  destruct (requiredInputOrTextarea f).
  - destruct (validateField f errs) as [[ok f'] errs'].
    replace (if negb ok then false else false) with false by by destruct ok.
    specialize (IH errs').
    destruct (validateInputs fs errs' false) as [[? ?] ?]. done.
  - specialize (IH errs).
    destruct (validateInputs fs errs false) as [[? ?] ?]. done.
Qed.

Lemma validateInputs_invalid fs errs allValid :
  Exists (λ f, requiredInputOrTextarea f = true ∧
               (validateField f []).1.1 = false) fs →
  (validateInputs fs errs allValid).2 = false.
Proof.
  intros H. revert errs allValid.
  induction H as [f fs [Hsel Hbad]|f fs _ IH]; intros errs allValid; simpl.
  - rewrite Hsel. rewrite <- (validateField_valid f errs) in Hbad.
    destruct (validateField f errs) as [[ok f'] errs']. simpl in Hbad.
    subst ok. simpl.
    pose proof (validateInputs_false fs errs') as Hf.
    destruct (validateInputs fs errs' false) as [[? ?] ?]. done.
  - destruct (requiredInputOrTextarea f).
    + destruct (validateField f errs) as [[ok f'] errs'].
      specialize (IH errs' (if negb ok then false else allValid)).
      destruct (validateInputs fs errs' _) as [[? ?] ?]. done.
    + specialize (IH errs allValid).
      destruct (validateInputs fs errs allValid) as [[? ?] ?]. done.
Qed.

(** What the handler does by design: when a required input or textarea
    fails validation, it returns without calling [submitContactForm],
    announces the correction request and leaves the submit button as it
    was. *)
Lemma handleContactSubmission_invalid fm :
  Exists (λ f, requiredInputOrTextarea f = true ∧
               (validateField f []).1.1 = false) (fields fm) →
  let fm' := (handleContactSubmission fm).2 in
  (handleContactSubmission fm).1 = Returned ∧
  submitContactFormCalls fm' = submitContactFormCalls fm ∧
  submitBtn fm' = submitBtn fm ∧
  announcer fm'
  = utils.announce (str "Please correct the errors in the form")
                   (announcer fm).
Proof.
  intros H. unfold handleContactSubmission.
  pose proof (validateInputs_invalid _ (errorDivs fm) true H) as Hv.
  destruct (validateInputs (fields fm) (errorDivs fm) true) as [[fs errs] av].
  simpl in Hv. subst av. simpl. done.
Qed.

(** C6 fails on the code: in the inquiry form the required [select] is
    empty, yet the handler disables the button, labels it "Sending..." and
    calls [submitContactForm]; the selector of [handleContactSubmission]
    leaves [select[required]] out. *)
Theorem handleContactSubmission_skips_select :
  Exists (λ f, requiredAndEmpty f = true)
         (fields Examples.inquiryWithoutTopic) ∧
  handleContactSubmission Examples.inquiryWithoutTopic
  = (AwaitSubmitContactForm (str "Send"),
     {| fields :=
          [{| tagName := input; type := str "text"; name := str "name";
              required := true; value := str "Dina";
              ariaInvalid := Some (str "false"); fieldError := false |};
           Examples.textField select "select-one" "topic" true ""];
        submitBtn := Some {| disabled := true; textContent := str "Sending...";
                             background := [] |};
        errorDivs := [];
        announcer := Some [];
        submitContactFormCalls :=
          [[(str "name", str "Dina"); (str "topic", [])]] |}).
Proof.
  split; [| reflexivity].
  apply Exists_cons_tl, Exists_cons_hd. reflexivity.
Qed.

End ContactSubmission.

(** The same form with the name left empty is held back. *)
Lemma handleContactSubmission_invalid_example :
  (Forms.handleContactSubmission Examples.inquiryWithoutName).1
  = Forms.Returned.
Proof.
  apply (handleContactSubmission_invalid Examples.inquiryWithoutName).
  apply Exists_cons_hd. split; reflexivity.
Defined.

(** ** Counting the elements of a list that satisfy a test *)

Section Counting.
Context {A : Type} (P : A → bool).
Implicit Types (l : list A).

Lemma filter_none_at_all l :
  (∀ k x, l !! k = Some x → P x = false) → List.filter P l = [].
Proof.
  induction l as [|y l IH]; intros H; [done |]. simpl.
  rewrite (H 0 y) by done. apply IH.
  intros k x Hk. by apply (H (S k) x).
Qed.

(** If only position [i] may satisfy the test, at most one element does. *)
Lemma filter_at_most_one i l :
  (∀ k x, l !! k = Some x → k ≠ i → P x = false) →
  length (List.filter P l) ≤ 1.
Proof.
  revert i. induction l as [|y l IH]; intros i H; simpl; [lia |].
  destruct i as [|i].
  - rewrite filter_none_at_all by (intros k x Hx; by apply (H (S k) x)).
    destruct (P y); simpl; lia.
  - rewrite (H 0 y) by done.
    apply (IH i). intros k x Hx Hk. apply (H (S k) x); [done | lia].
Qed.

(** Overwriting a position with an element that fails the test does not
    raise the count. *)
Lemma filter_insert_false i x l :
  P x = false →
  length (List.filter P (<[i:=x]> l)) ≤ length (List.filter P l).
Proof.
  intros Hx. revert i. induction l as [|y l IH]; intros i; [done |].
  destruct i as [|i]; simpl.
  - rewrite Hx. destruct (P y); simpl; lia.
  - specialize (IH i). destruct (P y); simpl; lia.
Qed.

(** Changing an element without changing its test keeps the count. *)
Lemma filter_alter_same (f : A → A) i l :
  (∀ x, P (f x) = P x) →
  length (List.filter P (alter f i l)) = length (List.filter P l).
Proof.
  intros Hf. revert i. induction l as [|y l IH]; intros i; [done |].
  destruct i as [|i]; simpl.
  - rewrite Hf. by destruct (P y).
  - specialize (IH i). destruct (P y); simpl; [f_equal |]; exact IH.
Qed.

End Counting.

(** ** AudioPlayer *)

Section Players.
Import AudioPlayer.

Lemma updateProgress_no_interval p :
  hasInterval p = false → updateProgress p = p.
Proof.
  unfold hasInterval, updateProgress.
  destruct (state p), (progressBar (element p)), (currentTime (element p));
    done.
Qed.

(** One tick, on a player that has an interval. *)
Lemma updateProgress_spec p c :
  state p = Some c → hasInterval p = true →
  let advancing := isPlaying c && num_ltb (Int (progress c)) (duration c) in
  (advancing = true → progressOf (updateProgress p) = (progress c + 1)%Z) ∧
  (advancing = false → updateProgress p = p) ∧
  (progressOf p ≤ progressOf (updateProgress p))%Z ∧
  (exceeds p = false → exceeds (updateProgress p) = false) ∧
  playing (updateProgress p) = playing p.
Proof.
  intros Hc Hi advancing. unfold hasInterval in Hi. unfold updateProgress.
  rewrite Hc in *.
  destruct (progressBar (element p)) as [bar|]; [|done].
  destruct (currentTime (element p)) as [txt|]; [|done].
  fold advancing. destruct advancing eqn:Hadv.
  - unfold progressOf, exceeds, playing. rewrite Hc. simpl.
    apply andb_true_iff in Hadv as [Hp Hlt].
    destruct (duration c) as [|d]; [done |]. simpl in Hlt.
    apply Z.ltb_lt in Hlt.
    split_and!; try done; try lia.
    intros _. unfold num_gtb. simpl. apply Z.ltb_ge. lia.
  - split_and!; done || lia.
Qed.

(** A click on a play button leaves every progress counter alone. *)
Lemma clickPlay_progress i pg j p :
  players pg !! j = Some p →
  ∃ p', players (clickPlay i pg) !! j = Some p' ∧
        progressOf p' = progressOf p ∧ exceeds p' = exceeds p.
Proof.
  intros Hj. unfold clickPlay.
  destruct (players pg !! i) as [[e [c|]]|] eqn:Hi; [|by eauto..].
  assert (Hreset : ∃ p0, playAudio i (players pg) !! j = Some p0 ∧
                         progressOf p0 = progressOf p ∧
                         exceeds p0 = exceeds p).
  { unfold playAudio. rewrite list_lookup_imap, Hj. simpl.
    destruct (decide (j = i)); eauto. }
  assert (Hlen : i < length (players pg)) by by eapply lookup_lt_Some.
  destruct (decide (j = i)) as [->|Hne].
  - rewrite Hi in Hj. injection Hj as <-.
    destruct (negb (isPlaying c)); simpl.
    + rewrite list_lookup_insert_eq
        by (unfold playAudio; by rewrite length_imap).
      eauto.
    + rewrite list_lookup_insert_eq by done. eauto.
  - destruct (negb (isPlaying c)); simpl;
      rewrite list_lookup_insert_ne by done; [done | eauto].
Qed.

Lemma step_progress e pg j p :
  players pg !! j = Some p →
  ∃ p', players (step pg e) !! j = Some p' ∧
        (progressOf p ≤ progressOf p')%Z ∧
        (exceeds p = false → exceeds p' = false).
Proof.
  intros Hj. destruct e as [i|i]; simpl.
  - destruct (clickPlay_progress i pg j p Hj) as (p' & Hp' & Hprog & Hex).
    exists p'. rewrite Hprog, Hex. split_and!; done || lia.
  - unfold tickPlayer. simpl.
    destruct (decide (i = j)) as [->|Hne].
    + rewrite list_lookup_alter_eq, Hj. simpl. eexists; split; [done |].
      destruct (hasInterval p) eqn:Hi.
      * destruct (state p) as [c|] eqn:Hc;
          [| by unfold hasInterval in Hi; rewrite Hc in Hi].
        destruct (updateProgress_spec p c Hc Hi) as (_ & _ & H1 & H2 & _).
        done.
      * rewrite updateProgress_no_interval by done. split; [lia | done].
    + rewrite list_lookup_alter_ne by done. exists p.
      split_and!; done || lia.
Qed.

Lemma run_progress es pg j p :
  players pg !! j = Some p →
  ∃ p', players (run es pg) !! j = Some p' ∧
        (progressOf p ≤ progressOf p')%Z ∧
        (exceeds p = false → exceeds p' = false).
Proof.
  revert pg p. induction es as [|e es IH]; intros pg p Hj; simpl.
  - exists p. split_and!; done || lia.
  - destruct (step_progress e pg j p Hj) as (p1 & Hp1 & Hle1 & Hex1).
    destruct (IH _ _ Hp1) as (p2 & Hp2 & Hle2 & Hex2).
    exists p2. split_and!; [done | lia | auto].
Qed.

(** A fresh player starts at 0, which exceeds the duration exactly when the
    parsed duration is negative. *)
Lemma initializePlayer_exceeds e c :
  state (initializePlayer e) = Some c →
  progress c = 0%Z ∧
  (exceeds (initializePlayer e) = false ↔ num_ltb (duration c) (Int 0) = false).
Proof.
  unfold exceeds. intros Hc. rewrite Hc.
  unfold initializePlayer in Hc. destruct (playBtn e); [|done].
  simpl in Hc. injection Hc as <-. done.
Qed.

(** C9 (as the code has it): on every tick of a player's interval the
    progress counter goes up by exactly 1 when the player is playing and
    [progress < duration], and otherwise nothing changes; the tick never
    changes [isPlaying], so nothing stops or loops at the end; over any run
    of clicks and ticks progress never decreases, and it never exceeds the
    duration if it did not at the start, which for a fresh player means
    that the parsed duration is not negative. *)
Theorem progress_tick_correct :
  (∀ p c, state p = Some c → hasInterval p = true →
     let advancing := isPlaying c && num_ltb (Int (progress c)) (duration c) in
     (advancing = true → progressOf (updateProgress p) = (progress c + 1)%Z) ∧
     (advancing = false → updateProgress p = p) ∧
     playing (updateProgress p) = playing p) ∧
  (∀ es pg j p, players pg !! j = Some p →
     ∃ p', players (run es pg) !! j = Some p' ∧
           (progressOf p ≤ progressOf p')%Z ∧
           (exceeds p = false → exceeds p' = false)) ∧
  (∀ e c, state (initializePlayer e) = Some c →
     progress c = 0%Z ∧
     (exceeds (initializePlayer e) = false
      ↔ num_ltb (duration c) (Int 0) = false)).
Proof.
  split_and!.
  - intros p c Hc Hi advancing.
    destruct (updateProgress_spec p c Hc Hi) as (H1 & H2 & _ & _ & H3).
    done.
  - apply run_progress.
  - apply initializePlayer_exceeds.
Qed.

(** Every other player's play button shows the play control after a click
    that starts playback. *)
Lemma clickPlay_resets_others i pg e c j p :
  players pg !! i = Some {| element := e; state := Some c |} →
  isPlaying c = false →
  j ≠ i → players pg !! j = Some p →
  players (clickPlay i pg) !! j
  = Some {| element := set_playBtn (showPlay <$> playBtn (element p))
                                   (element p);
            state := state p |}.
Proof.
  intros Hi Hc Hne Hj. unfold clickPlay. rewrite Hi, Hc. simpl.
  rewrite list_lookup_insert_ne by done.
  unfold playAudio. rewrite list_lookup_imap, Hj. simpl.
  by rewrite decide_False.
Qed.

(** The buttons do obey the one-at-a-time rule: over any run of clicks and
    ticks at most one play button shows the pause control. *)
Lemma showsPause_updateProgress p :
  showsPause (updateProgress p) = showsPause p.
Proof.
  unfold updateProgress.
  destruct (state p) as [c|]; [|done].
  destruct (progressBar (element p)); [|done].
  destruct (currentTime (element p)); [|done].
  by destruct (isPlaying c && num_ltb (Int (progress c)) (duration c)).
Qed.

Lemma step_showsPause pg e :
  length (List.filter showsPause (players pg)) ≤ 1 →
  length (List.filter showsPause (players (step pg e))) ≤ 1.
Proof.
  intros Hinv. destruct e as [i|i]; simpl.
  - unfold clickPlay.
    destruct (players pg !! i) as [[el [c|]]|] eqn:Hi; try done.
    destruct (negb (isPlaying c)); simpl.
    + apply (filter_at_most_one showsPause i). intros k p Hk Hne.
      rewrite list_lookup_insert_ne in Hk by done.
      unfold playAudio in Hk. rewrite list_lookup_imap in Hk.
      destruct (players pg !! k) as [p0|]; [|done]. simpl in Hk.
      rewrite decide_False in Hk by done. injection Hk as <-.
      unfold showsPause. simpl. by destruct (playBtn (element p0)).
    + etransitivity; [apply filter_insert_false | exact Hinv].
      unfold showsPause. simpl. by destruct (playBtn el).
  - unfold tickPlayer. simpl.
    by rewrite filter_alter_same by apply showsPause_updateProgress.
Qed.

Lemma run_showsPause es pg :
  length (List.filter showsPause (players pg)) ≤ 1 →
  length (List.filter showsPause (players (run es pg))) ≤ 1.
Proof.
  revert pg. induction es as [|e es IH]; intros pg H; simpl; [done |].
  apply IH. by apply step_showsPause.
Qed.

End Players.

(** A player playing at second 0 of 3:00, ticked once. *)
Lemma progress_tick_correct_witness :
  AudioPlayer.progressOf
    (AudioPlayer.updateProgress
       {| AudioPlayer.element := Examples.playerMarkup "3:00";
          AudioPlayer.state :=
            Some {| AudioPlayer.isPlaying := true; AudioPlayer.progress := 0;
                    AudioPlayer.duration := Int 180 |} |})
  = 1%Z.
Proof.
  apply (proj1 (proj1 progress_tick_correct
                  {| AudioPlayer.element := Examples.playerMarkup "3:00";
                     AudioPlayer.state :=
                       Some {| AudioPlayer.isPlaying := true;
                               AudioPlayer.progress := 0;
                               AudioPlayer.duration := Int 180 |} |}
                  _ eq_refl eq_refl)).
  reflexivity.
Defined.

(** C9 as stated fails: with the total time ["-1:30"] the parsed duration
    is -30, and the fresh player's progress, 0, exceeds it. *)
Lemma progress_exceeds_negative_duration :
  let p := AudioPlayer.initializePlayer (Examples.playerMarkup "-1:30") in
  AudioPlayer.state p
  = Some {| AudioPlayer.isPlaying := false; AudioPlayer.progress := 0;
            AudioPlayer.duration := Int (-30) |}
  ∧ AudioPlayer.exceeds p = true.
Proof. split; reflexivity. Qed.

(** C2 fails on the code: after play clicks on player 0 and then on player
    1 both closures have [isPlaying = true] (only the button of player 0
    went back to the play control), and both progress counters advance on
    the next ticks. *)
Theorem two_players_playing :
  let pg := AudioPlayer.run [AudioPlayer.Click 0; AudioPlayer.Click 1]
                            Examples.twoPlayers in
  AudioPlayer.playing <$> AudioPlayer.players pg = [true; true] ∧
  AudioPlayer.playingCount pg = 2 ∧
  AudioPlayer.showsPause <$> AudioPlayer.players pg = [false; true] ∧
  AudioPlayer.progressOf
    <$> AudioPlayer.players
          (AudioPlayer.run [AudioPlayer.Tick 0; AudioPlayer.Tick 1] pg)
  = [1%Z; 1%Z].
Proof. vm_compute. done. Qed.

(** ** FAQ accordion *)

Section Accordion.
Import FAQ.

(** On a complete item the loop body throws nothing and leaves the item
    collapsed, its answer hidden. *)
Lemma collapse_complete it :
  complete it = true →
  collapse it = ({| question := Some (Some (str "false"));
                    answer := Some (Some (str "true")) |}, false).
Proof.
  unfold complete, collapse.
  by destruct (question it), (answer it).
Qed.

Lemma collapse_not_expanded it : expanded (collapse it).1 = expanded it
                                 ∨ expanded (collapse it).1 = false.
Proof.
  unfold collapse.
  destruct (question it) as [q|], (answer it) as [a|]; simpl; auto.
Qed.

Lemma collapseOthers_complete i j items :
  Forall (λ it, complete it = true) items →
  collapseOthers i j items
  = (imap (λ k it, if decide (j + k = i) then it else (collapse it).1) items,
     false).
Proof.
  intros H. revert j. induction H as [|it items Hit _ IH]; intros j; simpl.
  - done.
  - rewrite Nat.add_0_r. destruct (decide (j = i)) as [->|Hne].
    + rewrite IH. f_equal. f_equal. apply imap_ext. intros k x _. simpl.
      by replace (i + S k) with (S i + k) by lia.
    + rewrite collapse_complete by done. simpl. rewrite IH.
      f_equal. f_equal. apply imap_ext. intros k x _. simpl.
      by replace (j + S k) with (S j + k) by lia.
Qed.

(** A click on a page of complete items: every other item ends collapsed
    with its answer hidden, and the clicked item is toggled. *)
Lemma clickQuestion_complete i pg it :
  Forall (λ it, complete it = true) (faqItems pg) →
  faqItems pg !! i = Some it →
  (clickQuestion i pg).1 = Normal ∧
  ∀ k it', faqItems (clickQuestion i pg).2 !! k = Some it' →
    if decide (k = i)
    then it' = {| question := Some (Some (ofBool (negb (expanded it))));
                  answer := Some (Some (ofBool (expanded it))) |}
    else it' = {| question := Some (Some (str "false"));
                  answer := Some (Some (str "true")) |}.
Proof.
  intros Hall Hi. unfold clickQuestion. rewrite Hi.
  assert (Hit : complete it = true).
  { rewrite Forall_forall in Hall. apply Hall.
    apply list_elem_of_In. by eapply list_elem_of_lookup_2. }
  unfold complete in Hit.
  destruct it as [[q|] [a|]]; try done. simpl in *.
  rewrite collapseOthers_complete by done. simpl.
  split; [done |]. intros k it' Hk.
  assert (Hlen : i < length (faqItems pg)) by by eapply lookup_lt_Some.
  destruct (decide (k = i)) as [->|Hne].
  - rewrite list_lookup_insert_eq in Hk by by rewrite length_imap.
    injection Hk as <-. unfold expanded. simpl.
    by rewrite (bool_decide_ext (Some q = Some (Some (str "true")))
                                (q = Some (str "true"))) by naive_solver.
  - rewrite list_lookup_insert_ne in Hk by done.
    rewrite list_lookup_imap in Hk.
    destruct (faqItems pg !! k) as [x|] eqn:Hx; [|done]. simpl in Hk.
    rewrite decide_False in Hk by done. injection Hk as <-.
    rewrite collapse_complete; [done |].
    rewrite Forall_forall in Hall. apply Hall.
    apply list_elem_of_In. by eapply list_elem_of_lookup_2.
Qed.

(** The inner loop never expands anything, whether it throws or not. *)
Lemma collapseOthers_count i j items :
  length (List.filter expanded (collapseOthers i j items).1)
  ≤ length (List.filter expanded items).
Proof.
  revert j. induction items as [|it items IH]; intros j; simpl; [done |].
  destruct (decide (j = i)).
  - specialize (IH (S j)).
    destruct (collapseOthers i (S j) items) as [rest' threw]. simpl in *.
    destruct (expanded it); simpl; lia.
  - destruct (collapse_not_expanded it) as [Heq|Heq];
      destruct (collapse it) as [it' threw]; simpl in Heq;
      (destruct threw;
       [ simpl; rewrite Heq; destruct (expanded it); simpl; lia
       | specialize (IH (S j));
         destruct (collapseOthers i (S j) items) as [rest' threw'];
         simpl in *; rewrite Heq; destruct (expanded it); simpl; lia ]).
Qed.

(** When the inner loop completes, every item but the clicked one is
    collapsed. *)
Lemma collapseOthers_done i j items items' :
  collapseOthers i j items = (items', false) →
  length items' = length items ∧
  ∀ k it', items' !! k = Some it' → j + k ≠ i → expanded it' = false.
Proof.
  revert j items'. induction items as [|it items IH]; intros j items'; simpl.
  - intros [= <-]. split; [done |]. intros k it' Hk. done.
  - destruct (decide (j = i)) as [->|Hne].
    + destruct (collapseOthers i (S i) items) as [rest' threw] eqn:Hrest.
      intros [= <- ->]. destruct (IH _ _ Hrest) as [Hlen Hrest'].
      split; [simpl; lia |]. intros [|k] it' Hk Hki; [lia |].
      simpl in Hk. apply (Hrest' k); [done | lia].
    + destruct (collapse it) as [it0 threw0] eqn:Hit.
      destruct threw0; [done |].
      destruct (collapseOthers i (S j) items) as [rest' threw] eqn:Hrest.
      intros [= <- ->]. destruct (IH _ _ Hrest) as [Hlen Hrest'].
      split; [simpl; lia |]. intros [|k] it' Hk Hki; simpl in Hk.
      * injection Hk as <-. unfold collapse in Hit.
        destruct (question it), (answer it); simplify_eq; reflexivity.
      * apply (Hrest' k); [done | lia].
Qed.

(** At most one item expanded: every handler run keeps it so, also one
    that throws. *)
Lemma step_expandedCount pg e :
  expandedCount pg ≤ 1 → expandedCount (step pg e).2 ≤ 1.
Proof.
  intros Hinv.
  assert (Hclick : ∀ i, expandedCount (clickQuestion i pg).2 ≤ 1).
  { intros i. unfold clickQuestion.
    destruct (faqItems pg !! i) as [[[q|] [a|]]|] eqn:Hi; try done.
    pose proof (collapseOthers_count i 0 (faqItems pg)) as Hcount.
    destruct (collapseOthers i 0 (faqItems pg)) as [items threw] eqn:Hloop.
    destruct threw; unfold expandedCount in *; simpl in *; [lia |].
    destruct (collapseOthers_done _ _ _ _ Hloop) as [Hlen Hothers].
    apply (filter_at_most_one expanded i). intros k it Hk Hne.
    rewrite list_lookup_insert_ne in Hk by done.
    apply (Hothers k); [done | lia]. }
  destruct e as [i|key i]; simpl; [apply Hclick |].
  unfold keydownQuestion.
  destruct (bool_decide (key = str "Enter") || bool_decide (key = str " "));
    [apply Hclick | done].
Qed.

Lemma run_expandedCount es pg :
  expandedCount pg ≤ 1 → expandedCount (run es pg) ≤ 1.
Proof.
  revert pg. induction es as [|e es IH]; intros pg H; simpl; [done |].
  apply IH. by apply step_expandedCount.
Qed.

End Accordion.

(** On the complete accordion, a click on the second question while the
    first item is open closes the first and opens the second. *)
Lemma clickQuestion_complete_example :
  FAQ.expanded <$> FAQ.faqItems (FAQ.clickQuestion 1 Examples.faqThree).2
  = [false; true; false].
Proof. reflexivity. Qed.

(** C3 fails on the code: the accordion has a [.faq-item] without an
    answer element; with the first item open, a click on the second
    question collapses the first item and then throws a [TypeError] at the
    bare item, before the clicked item is expanded and before anything is
    announced. *)
Theorem clickQuestion_throws_at_bare_item :
  FAQ.expanded <$> FAQ.faqItems Examples.faqWithBareItem
  = [true; false; false] ∧
  FAQ.clickQuestion 1 Examples.faqWithBareItem
  = (FAQ.TypeError,
     {| FAQ.faqItems :=
          [Examples.faqEntry false; Examples.faqEntry false;
           {| FAQ.question := Some (Some (str "false"));
              FAQ.answer := None |}];
        FAQ.announcer := Some [] |}) ∧
  FAQ.expanded
    <$> FAQ.faqItems (FAQ.clickQuestion 1 Examples.faqWithBareItem).2
  = [false; false; false].
Proof. split_and!; reflexivity. Qed.

(* ===================================================================== *)
(** * Further properties of the script *)
(* ===================================================================== *)

(** ** Timers whose callbacks only write to the page *)

Section PureLoop.
Context {W Cb : Type} (apply : Cb → W → W).
Implicit Types (l : loop W Cb) (tm : timer Cb) (ts : list (timer Cb)).

Lemma filter_ext_in {A} (P Q : A → Prop) `{∀ x, Decision (P x)}
    `{∀ x, Decision (Q x)} (xs : list A) :
  (∀ x, x ∈ xs → (P x ↔ Q x)) → filter P xs = filter Q xs.
Proof.
  induction xs as [|x xs IH]; intros HPQ; [done |].
  assert (Hx : P x ↔ Q x) by (apply HPQ; apply list_elem_of_here).
  assert (Hxs : filter P xs = filter Q xs).
  { apply IH. intros y Hy. apply HPQ. by apply list_elem_of_further. }
  destruct (decide (P x)) as [HP|HP].
  - rewrite !filter_cons_True by tauto. by rewrite Hxs.
  - rewrite !filter_cons_False by tauto. done.
Qed.

Lemma filter_all {A} (P : A → Prop) `{∀ x, Decision (P x)} (xs : list A) :
  (∀ x, x ∈ xs → P x) → filter P xs = xs.
Proof.
  induction xs as [|x xs IH]; intros HP; [done |].
  rewrite filter_cons_True by (apply HP; apply list_elem_of_here).
  f_equal. apply IH. intros y Hy. apply HP. by apply list_elem_of_further.
Qed.

Lemma NoDup_tid_filter (P : timer Cb → Prop) `{∀ x, Decision (P x)} ts :
  NoDup (tid <$> ts) → NoDup (tid <$> filter P ts).
Proof.
  induction ts as [|t ts IH]; intros Hnd; [constructor |].
  rewrite fmap_cons in Hnd. apply list.NoDup_cons in Hnd as [Ht Hts].
  destruct (decide (P t)).
  - rewrite filter_cons_True by done. rewrite fmap_cons.
    apply list.NoDup_cons. split; [|by apply IH].
    intros (x & Hx & Hin%list_elem_of_filter)%list_elem_of_fmap.
    apply Ht. apply list_elem_of_fmap. exists x. tauto.
  - rewrite filter_cons_False by done. by apply IH.
Qed.

(** Among timers with distinct ids, an id names its timer. *)
Lemma distinct_ids_inj ts tm tm' :
  NoDup (tid <$> ts) → tm ∈ ts → tm' ∈ ts → tid tm = tid tm' → tm = tm'.
Proof.
  induction ts as [|t ts IH]; intros Hnd H1 H2 Heq.
  - by apply elem_of_nil in H1.
  - rewrite fmap_cons in Hnd. apply list.NoDup_cons in Hnd as [Ht Hts].
    apply elem_of_cons in H1 as [->|H1];
      apply elem_of_cons in H2 as [->|H2]; try done.
    + exfalso. apply Ht. rewrite Heq. by apply list_elem_of_fmap_2.
    + exfalso. apply Ht. rewrite <- Heq. by apply list_elem_of_fmap_2.
    + by apply IH.
Qed.

Lemma fire_list_pure ts l :
  Pure.distinct_ids l →
  (∀ tm, tm ∈ ts → tm ∈ pending l) →
  NoDup ts →
  fire_list (Pure.run apply) ts l
  = {| now := now l; next_id := next_id l;
       pending := filter (λ p, tid p ∉ tid <$> ts) (pending l);
       world := Pure.replay apply ts (world l) |}.
Proof.
  revert l. induction ts as [|t ts IH]; intros l Hl Hin Hts.
  - simpl. destruct l. unfold Pure.replay. simpl. f_equal.
    symmetry. apply filter_all. intros p _. apply not_elem_of_nil.
  - simpl. apply list.NoDup_cons in Hts as [Ht Hts].
    assert (Htl : t ∈ pending l) by (apply Hin; apply list_elem_of_here).
    assert (Hid : tid t ∉ tid <$> ts).
    { intros (x & Hx & Hxin)%list_elem_of_fmap.
      assert (t = x) as ->; [|done].
      apply (distinct_ids_inj (pending l)); try done.
      apply Hin. by apply list_elem_of_further. }
    rewrite decide_True.
    2:{ apply Exists_exists. exists t. split; [|done].
        by apply list_elem_of_In. }
    rewrite IH.
    + unfold Pure.run, Pure.replay. simpl. f_equal.
      rewrite list_filter_filter. apply filter_ext_in.
      intros p Hp. rewrite ?fmap_cons, not_elem_of_cons. tauto.
    + unfold Pure.distinct_ids. simpl. by apply NoDup_tid_filter.
    + intros tm Htm. simpl. apply list_elem_of_filter. split.
      * intros Heq. apply Hid. rewrite <- Heq. by apply list_elem_of_fmap_2.
      * apply Hin. by apply list_elem_of_further.
    + done.
Qed.

(** What one look at the clock does: the timers that are due run, in the
    order in which they were set, and leave the queue. *)
Lemma fire_due_pure l :
  Pure.distinct_ids l →
  fire_due (Pure.run apply) l
  = {| now := now l; next_id := next_id l;
       pending := filter (λ p, now l < due p) (pending l);
       world := Pure.replay apply (filter (λ p, due p ≤ now l) (pending l))
                            (world l) |}.
Proof.
  intros Hl. unfold fire_due. rewrite fire_list_pure; try done.
  - f_equal. apply filter_ext_in. intros p Hp. split.
    + intros Hn. destruct (decide (due p ≤ now l)) as [Hle|]; [|lia].
      exfalso. apply Hn. apply list_elem_of_fmap_2.
      by apply list_elem_of_filter.
    + intros Hlt (x & Hx & [Hle Hxin]%list_elem_of_filter)%list_elem_of_fmap.
      assert (p = x) as ->; [|lia].
      by apply (distinct_ids_inj (pending l)).
  - intros tm Htm%list_elem_of_filter. tauto.
  - apply list.NoDup_filter. apply (NoDup_fmap_1 tid). exact Hl.
Qed.

Lemma replay_app ts ts' (w : W) :
  Pure.replay apply (ts ++ ts') w
  = Pure.replay apply ts' (Pure.replay apply ts w).
Proof. unfold Pure.replay. apply fold_left_app. Qed.

Lemma advance_pure n l :
  Pure.distinct_ids l →
  Forall (λ p, now l < due p) (pending l) →
  ∃ ts, (∀ tm, tm ∈ ts ↔ tm ∈ pending l ∧ due tm ≤ now l + n) ∧
        advance (Pure.run apply) n l
        = {| now := now l + n; next_id := next_id l;
             pending := filter (λ p, now l + n < due p) (pending l);
             world := Pure.replay apply ts (world l) |}.
Proof.
  revert l. induction n as [|n IH]; intros l Hl Hlate.
  - exists []. split.
    + intros tm. rewrite elem_of_nil. split; [done |].
      intros [Hin Hdue]. rewrite Forall_forall in Hlate.
      apply list_elem_of_In, Hlate in Hin. lia.
    + simpl. destruct l as [t k ps w]. simpl in *. f_equal; [lia |].
      symmetry. apply filter_all. intros p Hp.
      rewrite Forall_forall in Hlate.
      apply list_elem_of_In, Hlate in Hp. lia.
  - simpl. unfold tick. rewrite fire_due_pure by exact Hl. simpl.
    set (l1 := {| now := S (now l); next_id := next_id l;
                  pending := filter (λ p, S (now l) < due p) (pending l);
                  world := Pure.replay apply
                             (filter (λ p, due p ≤ S (now l)) (pending l))
                             (world l) |}).
    destruct (IH l1) as (ts2 & Hts2 & Heq).
    { unfold Pure.distinct_ids, l1. simpl. by apply NoDup_tid_filter. }
    { unfold l1. simpl. apply Forall_forall. intros p Hp.
      apply list_elem_of_In, list_elem_of_filter in Hp. tauto. }
    exists (filter (λ p, due p ≤ S (now l)) (pending l) ++ ts2). split.
    + intros tm. rewrite elem_of_app, Hts2, !list_elem_of_filter.
      unfold l1. simpl. rewrite list_elem_of_filter. split.
      * intros [[? ?]|[[? ?] ?]]; split; done || lia.
      * intros [Hin Hdue].
        destruct (decide (due tm ≤ S (now l))); [by left |].
        right. split; [split; [lia | done] | lia].
    + rewrite Heq. unfold l1. simpl. f_equal.
      * lia.
      * rewrite list_filter_filter. apply filter_ext_in. intros p _. lia.
      * by rewrite replay_app.
Qed.

(** Up to time [T] exactly the timers due by then have run; the others
    are still pending. *)
Lemma run_until_pure T l :
  Pure.distinct_ids l → now l ≤ T →
  ∃ ts, (∀ tm, tm ∈ ts ↔ tm ∈ pending l ∧ due tm ≤ T) ∧
        run_until (Pure.run apply) T l
        = {| now := T; next_id := next_id l;
             pending := filter (λ p, T < due p) (pending l);
             world := Pure.replay apply ts (world l) |}.
Proof.
  intros Hl HT. unfold run_until. rewrite fire_due_pure by exact Hl.
  set (l1 := {| now := now l; next_id := next_id l;
                pending := filter (λ p, now l < due p) (pending l);
                world := Pure.replay apply
                           (filter (λ p, due p ≤ now l) (pending l))
                           (world l) |}).
  destruct (advance_pure (T - now l) l1) as (ts2 & Hts2 & Heq).
  { unfold Pure.distinct_ids, l1. simpl. by apply NoDup_tid_filter. }
  { unfold l1. simpl. apply Forall_forall. intros p Hp.
    apply list_elem_of_In, list_elem_of_filter in Hp. tauto. }
  exists (filter (λ p, due p ≤ now l) (pending l) ++ ts2). split.
  - intros tm. rewrite elem_of_app, Hts2, !list_elem_of_filter.
    unfold l1. simpl. rewrite list_elem_of_filter. split.
    + intros [[? ?]|[[? ?] ?]]; split; done || lia.
    + intros [Hin Hdue].
      destruct (decide (due tm ≤ now l)); [by left |].
      right. split; [split; [lia | done] | lia].
  - rewrite Heq. unfold l1. simpl. f_equal.
    + lia.
    + rewrite list_filter_filter. apply filter_ext_in. intros p _. lia.
    + by rewrite replay_app.
Qed.

(** Callbacks that leave a part of the page alone leave it alone however
    many of them run. *)
Lemma replay_preserves {B} (view : W → B) ts (w : W) :
  (∀ tm w', tm ∈ ts → view (apply (cb tm) w') = view w') →
  view (Pure.replay apply ts w) = view w.
Proof.
  revert w. induction ts as [|t ts IH]; intros w H; [done |].
  unfold Pure.replay in *. simpl. rewrite IH.
  - apply H. apply list_elem_of_here.
  - intros tm w' Htm. apply H. by apply list_elem_of_further.
Qed.

(** Setting a timer, writing to the page and letting time pass keep the
    timer queue well formed. *)
Lemma wf_set_world (w : W) l : Pure.wf l → Pure.wf (set_world w l).
Proof. done. Qed.

Lemma wf_setTimeout (c : Cb) delay l :
  Pure.wf l → Pure.wf (setTimeout c delay l).2.
Proof.
  intros [Hnd Hlt]. split.
  - unfold Pure.distinct_ids in *. simpl. rewrite fmap_app. simpl.
    apply list.NoDup_app. split; [done |]. split.
    + intros x (p & -> & Hp)%list_elem_of_fmap Hx%list_elem_of_singleton.
      rewrite Forall_forall in Hlt. apply list_elem_of_In, Hlt in Hp. lia.
    + apply list.NoDup_singleton.
  - simpl. apply Forall_app. split.
    + eapply list.Forall_impl; [exact Hlt |]. simpl. intros; lia.
    + constructor; [simpl; lia | constructor].
Qed.

Lemma wf_run_until T l :
  Pure.wf l → now l ≤ T → Pure.wf (run_until (Pure.run apply) T l).
Proof.
  intros [Hnd Hlt] HT.
  destruct (run_until_pure T l Hnd HT) as (ts & _ & ->).
  split.
  - unfold Pure.distinct_ids. simpl. by apply NoDup_tid_filter.
  - simpl. apply Forall_forall. intros p Hp.
    apply list_elem_of_In, list_elem_of_filter in Hp as [_ Hp].
    rewrite Forall_forall in Hlt. by apply Hlt, list_elem_of_In.
Qed.

Lemma now_run_until T l :
  Pure.distinct_ids l → now l ≤ T → now (run_until (Pure.run apply) T l) = T.
Proof.
  intros Hnd HT. by destruct (run_until_pure T l Hnd HT) as (ts & _ & ->).
Qed.

(** A page that no callback changes stays as it is. *)
Lemma replay_fixed ts (w : W) :
  (∀ c, apply c w = w) → Pure.replay apply ts w = w.
Proof.
  intros Hfix. induction ts as [|t ts IH]; [done |].
  unfold Pure.replay in *. simpl. by rewrite Hfix.
Qed.

End PureLoop.

(** ** utils.announce and its timer *)

Section LiveRegionFacts.
Import LiveRegion.

Lemma live_replay ts (old : jsstring) :
  Pure.replay apply ts (Some old)
  = match ts with [] => Some old | _ => Some [] end.
Proof.
  assert (Hclear : ∀ ts, Pure.replay apply ts (Some []) = Some []).
  { intros ts'. induction ts' as [|[? ? []] ts' IH]; [done | exact IH]. }
  destruct ts as [|[? ? []] ts]; [done |]. apply Hclear.
Qed.

Lemma live_inv_step hs tl l t m old :
  inv hs tl l → world l = Some old → tl ≤ t →
  inv (hs ++ [(t, m)]) t (announce_at l (t, m)) ∧
  world (announce_at l (t, m)) = Some m.
Proof.
  intros (Hnow & Hwf & Hdue) Hw Ht. unfold announce_at. simpl.
  pose proof (wf_run_until apply t l Hwf ltac:(lia)) as Hwf1.
  destruct (run_until_pure apply t l (proj1 Hwf) ltac:(lia))
    as (ts & Hts & Heq).
  rewrite Heq in *. clear Heq. unfold announce. simpl.
  rewrite Hw, live_replay.
  assert (Hsome : ∃ x, match ts with [] => Some old | _ => Some [] end
                       = Some x) by (destruct ts; eauto).
  destruct Hsome as [x Hx]. rewrite Hx in *.
  split; [|done]. split; [done |]. split.
  - apply (wf_setTimeout clearText 1000
             (set_world (Some m)
                {| now := t; next_id := next_id l;
                   pending := filter (λ p, t < due p) (pending l);
                   world := Some x |})).
    exact Hwf1.
  - intros d. simpl. rewrite fmap_app, elem_of_app. simpl.
    rewrite list_elem_of_singleton, list_elem_of_fmap. split.
    + intros [(p & -> & [Hp Hin]%list_elem_of_filter)|Hd].
      * destruct (proj1 (Hdue (due p))) as (c & Hc & Hd & Hlt).
        { by apply list_elem_of_fmap_2. }
        exists c. rewrite elem_of_app. auto.
      * exists (t, m). rewrite elem_of_app, list_elem_of_singleton.
        simpl. split; [auto | lia].
    + intros (c & [Hc|Hc]%elem_of_app & -> & Hlt).
      * assert (Hin : c.1 + 1000 ∈ due <$> pending l).
        { apply Hdue. exists c. split; [done |]. split; [done | lia]. }
        apply list_elem_of_fmap in Hin as (p & Hp1 & Hp2).
        left. exists p. rewrite list_elem_of_filter.
        rewrite <- Hp1. auto.
      * apply list_elem_of_singleton in Hc as ->. by right.
Qed.

Lemma live_inv_history hs tl l cs old :
  inv hs tl l → world l = Some old →
  chronological tl cs.*1 →
  ∃ x, inv (hs ++ cs) (List.last cs.*1 tl) (fold_left announce_at cs l) ∧
       world (fold_left announce_at cs l) = Some x.
Proof.
  revert hs tl l old. induction cs as [|[t1 m1] cs IH];
    intros hs tl l old Hinv Hw Hchr.
  - simpl. exists old. by rewrite app_nil_r.
  - destruct Hchr as [Hle Hchr].
    destruct (live_inv_step hs tl l t1 m1 old Hinv Hw Hle) as [Hinv1 Hw1].
    destruct (IH _ _ _ m1 Hinv1 Hw1 Hchr) as (x & Hx & Hwx).
    exists x. rewrite <- app_assoc in Hx. split; [|exact Hwx].
    rewrite fmap_cons, last_cons_default. exact Hx.
Qed.

Lemma chronological_app t ts t' :
  chronological t (ts ++ [t']) ↔ chronological t ts ∧ List.last ts t ≤ t'.
Proof.
  revert t. induction ts as [|t1 ts IH]; intros t; simpl.
  - tauto.
  - rewrite IH.
    change (match ts with [] => t1 | _ :: _ => List.last ts t end)
      with (List.last (t1 :: ts) t).
    rewrite last_cons_default. tauto.
Qed.

(** X1: with a live region on the page, after any series of announcements
    the text of the last one stays until the first timer of any
    announcement still pending comes due, and the region is empty from
    then on: a message announced less than 1000ms after an earlier one is
    erased by the earlier one's timer, before its own 1000ms are over. *)
Theorem announce_erased_by_earlier_timer t0 old cs t m T :
  chronological t0 (cs ++ [(t, m)]).*1 →
  t ≤ T →
  text_at T (fold_left announce_at (cs ++ [(t, m)]) (start t0 (Some old)))
  = if erased_by T t (cs ++ [(t, m)]) then Some [] else Some m.
Proof.
  intros Hchr HT. rewrite fmap_app in Hchr. simpl in Hchr.
  apply chronological_app in Hchr as [Hchr Hlast].
  assert (Hinv0 : inv [] t0 (start t0 (Some old))).
  { split; [done |]. split; [split; constructor |].
    intros d. simpl. rewrite elem_of_nil. split; [done |].
    by intros (c & Hc%elem_of_nil & _). }
  destruct (live_inv_history [] t0 _ cs old Hinv0 eq_refl Hchr)
    as (x & Hinv & Hx).
  rewrite fold_left_app. simpl.
  destruct (live_inv_step _ _ _ t m x Hinv Hx Hlast)
    as [(Hnow & Hwf & Hdue) Hw].
  simpl in Hdue. unfold text_at.
  destruct (run_until_pure apply T _ (proj1 Hwf) ltac:(lia))
    as (ts & Hts & ->).
  simpl. rewrite Hw, live_replay.
  destruct (erased_by T t (cs ++ [(t, m)])) eqn:He.
  - apply existsb_exists in He as (c & Hc & Hb).
    apply andb_true_iff in Hb as [H1%Nat.ltb_lt H2%Nat.leb_le].
    assert (Hin0 : c.1 + 1000 ∈ due <$> pending (announce_at
              (fold_left announce_at cs (start t0 (Some old))) (t, m))).
    { apply Hdue. exists c. split; [by apply list_elem_of_In | done]. }
    apply list_elem_of_fmap in Hin0 as (p & Hp1 & Hp2).
    assert (Hin : p ∈ ts) by (apply Hts; split; [done | lia]).
    destruct ts; [by apply elem_of_nil in Hin | done].
  - destruct ts as [|p ts]; [done |]. exfalso.
    assert (Hp : p ∈ p :: ts) by apply list_elem_of_here.
    apply Hts in Hp as [Hp Hle].
    destruct (proj1 (Hdue (due p))) as (c & Hc & Hd & Hlt).
    { by apply list_elem_of_fmap_2. }
    assert (existsb (λ c, (t <? c.1 + 1000) && (c.1 + 1000 <=? T))
                    (cs ++ [(t, m)]) = true) as Hex; [|unfold erased_by in He; congruence].
    apply existsb_exists. exists c. split; [by apply list_elem_of_In |].
    apply andb_true_iff. split; [apply Nat.ltb_lt | apply Nat.leb_le]; lia.
Qed.

End LiveRegionFacts.

(** "Menu opened" at 0ms and "Dialog opened" at 400ms: the second message
    is gone at 1000ms, after 600ms. *)
Lemma announce_erased_by_earlier_timer_witness :
  LiveRegion.text_at 1000
    (fold_left LiveRegion.announce_at
       [(0, str "Menu opened"); (400, str "Dialog opened")]
       (LiveRegion.start 0 (Some [])))
  = Some [].
Proof.
  apply (announce_erased_by_earlier_timer 0 [] [(0, str "Menu opened")]
           400 (str "Dialog opened") 1000); simpl; lia.
Defined.

(** ** Navigation: dropdowns *)

Section DropdownFacts.
Import Dropdown.

Lemma dropdown_handle_at l t e :
  Pure.wf l → now l ≤ t →
  Pure.wf (handle_at l (t, e)) ∧ now (handle_at l (t, e)) = t.
Proof.
  intros Hwf Ht. unfold handle_at. simpl.
  pose proof (wf_run_until apply t l Hwf Ht) as Hwf1.
  pose proof (now_run_until apply t l (proj1 Hwf) Ht) as Hnow1.
  destruct e as [| |key]; simpl.
  - done.
  - split; [|done]. unfold mouseleave.
    by apply (wf_setTimeout hideIfCollapsed 150 (set_world _ _)).
  - unfold keydown.
    by destruct (bool_decide (key = str "Enter")
                 || bool_decide (key = str " ")).
Qed.

Lemma dropdown_history l cs :
  Pure.wf l → chronological (now l) cs.*1 →
  Pure.wf (fold_left handle_at cs l) ∧
  now (fold_left handle_at cs l) = List.last cs.*1 (now l).
Proof.
  revert l. induction cs as [|[t e] cs IH]; intros l Hwf Hchr; [done |].
  destruct Hchr as [Hle Hchr].
  destruct (dropdown_handle_at l t e Hwf Hle) as [Hwf1 Hnow1].
  cbn [fold_left]. rewrite <- Hnow1 in Hchr.
  destruct (IH _ Hwf1 Hchr) as [Hwf2 Hnow2].
  split; [done |]. rewrite Hnow2, Hnow1.
  by rewrite fmap_cons, last_cons_default.
Qed.

(** X2: once the pointer is back on a dropdown item, no timer left over
    from earlier [mouseleave] events hides the dropdown: whatever happened
    before, after a [mouseenter] the link stays expanded and the dropdown
    displayed until the next event. *)
Theorem dropdown_stays_open_after_mouseenter t0 it cs t T :
  chronological t0 (cs ++ [(t, Mouseenter)]).*1 →
  t ≤ T →
  item_at T (fold_left handle_at (cs ++ [(t, Mouseenter)]) (start t0 it))
  = {| ariaExpanded := Some (str "true"); display := str "block" |}.
Proof.
  intros Hchr HT. rewrite fmap_app in Hchr. simpl in Hchr.
  apply chronological_app in Hchr as [Hchr Hlast].
  assert (Hwf0 : Pure.wf (start t0 it)) by (split; constructor).
  destruct (dropdown_history (start t0 it) cs Hwf0 Hchr) as [Hwf Hnow].
  rewrite fold_left_app. simpl.
  set (l := fold_left handle_at cs (start t0 it)) in *.
  destruct (dropdown_handle_at l t Mouseenter Hwf ltac:(simpl in *; lia))
    as [Hwf1 Hnow1].
  unfold item_at.
  destruct (run_until_pure apply T _ (proj1 Hwf1) ltac:(lia))
    as (ts & _ & ->).
  simpl. apply replay_fixed. by intros [].
Qed.

Lemma dropdown_replay_collapsed ts d :
  Pure.replay apply ts {| ariaExpanded := Some (str "false"); display := d |}
  = {| ariaExpanded := Some (str "false");
       display := match ts with [] => d | _ => str "none" end |}.
Proof.
  assert (Hnone : ∀ ts,
    Pure.replay apply ts {| ariaExpanded := Some (str "false");
                            display := str "none" |}
    = {| ariaExpanded := Some (str "false"); display := str "none" |}).
  { intros ts'. apply replay_fixed. by intros []. }
  destruct ts as [|[? ? []] ts]; [done |]. apply Hnone.
Qed.

(** X3: the 150ms grace period counts from the first [mouseleave] whose
    timer is still pending: when the pointer leaves at [t], comes back and
    leaves again at [t2], all within 150ms, the dropdown is hidden at
    [t + 150], less than 150ms after the second leave. *)
Theorem dropdown_hidden_by_first_leave t0 it t t1 t2 T :
  t0 ≤ t → t ≤ t1 → t1 ≤ t2 → t2 < t + 150 → t2 ≤ T →
  item_at T (fold_left handle_at
               [(t, Mouseleave); (t1, Mouseenter); (t2, Mouseleave)]
               (start t0 it))
  = {| ariaExpanded := Some (str "false");
       display := if T <? t + 150 then str "block" else str "none" |}.
Proof.
  intros H0 H1 H2 H3 HT. simpl. unfold handle_at at 3. simpl.
  rewrite run_until_quiet by (simpl; done || constructor).
  unfold handle_at at 2. simpl.
  rewrite run_until_quiet
    by (simpl; done || (repeat constructor; simpl; lia)).
  unfold handle_at. simpl.
  rewrite run_until_quiet
    by (simpl; done || (repeat constructor; simpl; lia)).
  unfold item_at, mouseleave. simpl.
  destruct (run_until_pure apply T
              {| now := t2; next_id := 2;
                 pending := [{| tid := 0; due := t + 150;
                                cb := hideIfCollapsed |};
                             {| tid := 1; due := t2 + 150;
                                cb := hideIfCollapsed |}];
                 world := {| ariaExpanded := Some (str "false");
                             display := str "block" |} |})
    as (ts & Hts & ->).
  { unfold Pure.distinct_ids. simpl.
    by apply (bool_decide_unpack (NoDup [0; 1])). }
  { simpl. lia. }
  simpl. rewrite dropdown_replay_collapsed. f_equal.
  destruct (Nat.ltb_spec T (t + 150)) as [Hlt|Hge].
  - destruct ts as [|p ts]; [done |]. exfalso.
    assert (Hp : p ∈ p :: ts) by apply list_elem_of_here.
    apply Hts in Hp as [Hp Hle]. simpl in Hp.
    apply elem_of_cons in Hp as [->|Hp]; [simpl in Hle; lia |].
    apply list_elem_of_singleton in Hp as ->. simpl in Hle. lia.
  - assert (Hin : {| tid := 0; due := t + 150; cb := hideIfCollapsed |} ∈ ts).
    { apply Hts. split; [apply list_elem_of_here | simpl; lia]. }
    destruct ts; [by apply elem_of_nil in Hin | done].
Qed.

End DropdownFacts.

(** Leave at 0ms, back at 100ms, leave again at 140ms: hidden at 150ms. *)
Lemma dropdown_hidden_by_first_leave_witness :
  Dropdown.display
    (Dropdown.item_at 150
       (fold_left Dropdown.handle_at
          [(0, Dropdown.Mouseleave); (100, Dropdown.Mouseenter);
           (140, Dropdown.Mouseleave)]
          (Dropdown.start 0 {| Dropdown.ariaExpanded := None;
                               Dropdown.display := [] |})))
  = str "none".
Proof.
  rewrite (dropdown_hidden_by_first_leave 0 _ 0 100 140 150); [done | lia..].
Defined.

(** Any history, then the pointer comes back at 200ms. *)
Lemma dropdown_stays_open_after_mouseenter_witness :
  Dropdown.item_at 5000
    (fold_left Dropdown.handle_at
       ([(0, Dropdown.Mouseenter); (100, Dropdown.Mouseleave)]
        ++ [(200, Dropdown.Mouseenter)])
       (Dropdown.start 0 {| Dropdown.ariaExpanded := None;
                            Dropdown.display := [] |}))
  = {| Dropdown.ariaExpanded := Some (str "true");
       Dropdown.display := str "block" |}.
Proof.
  apply (dropdown_stays_open_after_mouseenter 0 _
           [(0, Dropdown.Mouseenter); (100, Dropdown.Mouseleave)] 200 5000);
    simpl; lia.
Defined.

(** ** Modal: opening and closing *)

Section ModalLifecycleFacts.
Import ModalLifecycle.

Lemma modal_replay_display ts w :
  Modal.display (modal (Pure.replay apply ts w))
  = if existsb (λ tm, match cb tm with hide => true | _ => false end) ts
    then str "none" else Modal.display (modal w).
Proof.
  revert w. induction ts as [|[i d c] ts IH]; intros w; [done |].
  unfold Pure.replay in *. simpl. rewrite IH.
  destruct c; simpl; try done.
  by destruct (existsb _ ts).
Qed.

(** Timers never touch [aria-hidden] or the scroll lock; the modal is
    undisplayed from the moment a [hide] timer comes due. *)
Lemma window_at_spec T l :
  Pure.distinct_ids l → now l ≤ T →
  Modal.ariaHidden (modal (window_at T l))
  = Modal.ariaHidden (modal (world l)) ∧
  bodyOverflow (window_at T l) = bodyOverflow (world l) ∧
  Modal.display (modal (window_at T l))
  = if hidden_by T (pending l) then str "none"
    else Modal.display (modal (world l)).
Proof.
  intros Hnd HT. unfold window_at.
  destruct (run_until_pure apply T l Hnd HT) as (ts & Hts & ->). simpl.
  split_and!.
  - apply (replay_preserves apply (λ w, Modal.ariaHidden (modal w))).
    by intros [? ? []] w' _.
  - apply (replay_preserves apply bodyOverflow). by intros [? ? []] w' _.
  - rewrite modal_replay_display. unfold hidden_by.
    assert (Heq : existsb (λ tm, match cb tm with
                                 | hide => true | _ => false end) ts
                  = existsb (λ tm, match cb tm with
                                   | hide => due tm <=? T | _ => false end)
                            (pending l)); [|by rewrite Heq].
    apply eq_true_iff_eq. rewrite !existsb_exists. split.
    + intros (tm & Hin & Hc). apply list_elem_of_In, Hts in Hin as [Hin Hle].
      exists tm. split; [by apply list_elem_of_In |].
      destruct (cb tm); try done. by apply Nat.leb_le.
    + intros (tm & Hin & Hc). exists tm.
      destruct (cb tm); try done. apply Nat.leb_le in Hc.
      split; [|done]. apply list_elem_of_In, Hts.
      split; [by apply list_elem_of_In | done].
Qed.

(** X4: [closeModal] at time [t] marks the modal hidden and unlocks the
    page scroll at once, and takes the modal off the display 250ms later:
    until [t + 250] the [display] is what it was, from then on it is
    ["none"]. *)
Theorem closeModal_hides_after_250 t0 w t T :
  t0 ≤ t → t ≤ T →
  let w' := window_at T (handle_at (start t0 w) (t, Close)) in
  Modal.ariaHidden (modal w') = Some (str "true") ∧
  bodyOverflow w' = [] ∧
  Modal.display (modal w')
  = if T <? t + 250 then Modal.display (modal w) else str "none".
Proof.
  intros H0 HT w'. unfold w', handle_at. simpl.
  rewrite run_until_quiet by (simpl; done || constructor).
  unfold closeModal, announce. simpl.
  destruct (Nat.ltb_spec T (t + 250)) as [Hlt|Hge];
    destruct (announcer w) as [a|]; simpl;
    (match goal with
     | |- context [window_at T ?l] =>
         destruct (window_at_spec T l) as (-> & -> & ->);
         [ by apply (bool_decide_unpack (NoDup _)) | simpl; lia | ]
     end);
    simpl; split_and!; try done;
    unfold hidden_by; simpl;
    (destruct (Nat.leb_spec (t + 250) T); [lia || done | lia || done]).
Qed.

(** The loop after a close at [t] and an open at [t'], less than 250ms
    later: the [hide] timer of the close is still pending. *)
Lemma reopened_loop t0 w t t' :
  t0 ≤ t → t ≤ t' → t' < t + 250 →
  ∃ l, fold_left handle_at [(t, Close); (t', Open)] (start t0 w) = l ∧
       now l = t' ∧ Pure.distinct_ids l ∧
       modal (world l) = {| Modal.ariaHidden := Some (str "false");
                            Modal.display := str "flex" |} ∧
       bodyOverflow (world l) = str "hidden" ∧
       ∀ T, hidden_by T (pending l) = (t + 250 <=? T).
Proof.
  intros H0 H1 H2.
  destruct (announcer w) as [a|] eqn:Ha, (hasFocusable w) eqn:Hf;
    eexists;
    (split;
     [ simpl; unfold handle_at at 2; simpl;
       rewrite run_until_quiet by (simpl; done || constructor);
       unfold handle_at, closeModal, announce; simpl; rewrite ?Ha; simpl;
       rewrite run_until_quiet
         by (simpl; first [lia | repeat constructor; simpl; lia]);
       unfold openModal, announce; simpl; rewrite ?Hf; simpl;
       reflexivity
     | simpl; split_and!; try done;
       [ by apply (bool_decide_unpack (NoDup _))
       | intros T; unfold hidden_by; simpl;
         by destruct (t + 250 <=? T) ] ]).
Qed.

(** X5: when a modal is reopened less than 250ms after it was closed,
    the timer of the close still runs: from [t + 250] on the modal is
    marked open ([aria-hidden] is ["false"], the page scroll is locked) but
    its [display] is ["none"]. *)
Theorem reopened_modal_is_undisplayed t0 w t t' T :
  t0 ≤ t → t ≤ t' → t' < t + 250 → t' ≤ T →
  let w' := window_at T (fold_left handle_at [(t, Close); (t', Open)]
                                   (start t0 w)) in
  Modal.ariaHidden (modal w') = Some (str "false") ∧
  bodyOverflow w' = str "hidden" ∧
  Modal.display (modal w')
  = if T <? t + 250 then str "flex" else str "none".
Proof.
  intros H0 H1 H2 HT.
  destruct (reopened_loop t0 w t t' H0 H1 H2)
    as (l & -> & Hnow & Hnd & Hm & Hb & Hh).
  destruct (window_at_spec T l Hnd ltac:(lia)) as (E1 & E2 & E3).
  simpl. rewrite E1, E2, E3, Hm, Hb, Hh. simpl.
  split_and!; try done.
  destruct (Nat.leb_spec (t + 250) T), (Nat.ltb_spec T (t + 250));
    done || lia.
Qed.

End ModalLifecycleFacts.

(** Closed at 1000ms, seen at 1250ms. *)
Lemma closeModal_hides_after_250_witness :
  Modal.display
    (ModalLifecycle.modal
       (ModalLifecycle.window_at 1250
          (ModalLifecycle.handle_at
             (ModalLifecycle.start 0
                {| ModalLifecycle.modal :=
                     {| Modal.ariaHidden := Some (str "false");
                        Modal.display := str "flex" |};
                   ModalLifecycle.hasFocusable := true;
                   ModalLifecycle.focused := true;
                   ModalLifecycle.bodyOverflow := str "hidden";
                   ModalLifecycle.announcer := Some [] |})
             (1000, ModalLifecycle.Close))))
  = str "none".
Proof.
  pose proof (closeModal_hides_after_250 0
                {| ModalLifecycle.modal :=
                     {| Modal.ariaHidden := Some (str "false");
                        Modal.display := str "flex" |};
                   ModalLifecycle.hasFocusable := true;
                   ModalLifecycle.focused := true;
                   ModalLifecycle.bodyOverflow := str "hidden";
                   ModalLifecycle.announcer := Some [] |}
                1000 1250 ltac:(lia) ltac:(lia)) as (_ & _ & H).
  exact H.
Defined.

(** Closed at 1000ms, reopened at 1100ms, seen at 2000ms. *)
Lemma reopened_modal_is_undisplayed_witness :
  let w' :=
    ModalLifecycle.window_at 2000
      (fold_left ModalLifecycle.handle_at
         [(1000, ModalLifecycle.Close); (1100, ModalLifecycle.Open)]
         (ModalLifecycle.start 0
            {| ModalLifecycle.modal :=
                 {| Modal.ariaHidden := Some (str "false");
                    Modal.display := str "flex" |};
               ModalLifecycle.hasFocusable := true;
               ModalLifecycle.focused := true;
               ModalLifecycle.bodyOverflow := str "hidden";
               ModalLifecycle.announcer := Some [] |})) in
  Modal.ariaHidden (ModalLifecycle.modal w') = Some (str "false") ∧
  Modal.display (ModalLifecycle.modal w') = str "none".
Proof.
  pose proof (reopened_modal_is_undisplayed 0
                {| ModalLifecycle.modal :=
                     {| Modal.ariaHidden := Some (str "false");
                        Modal.display := str "flex" |};
                   ModalLifecycle.hasFocusable := true;
                   ModalLifecycle.focused := true;
                   ModalLifecycle.bodyOverflow := str "hidden";
                   ModalLifecycle.announcer := Some [] |}
                1000 1100 2000 ltac:(lia) ltac:(lia) ltac:(lia) ltac:(lia))
    as (H1 & _ & H2).
  split; [exact H1 | exact H2].
Defined.

(** ** utils.debounce and utils.throttle on any series of calls *)

Section DebounceSeries.
Context {A : Type} (wait : nat).
Implicit Types (a : A) (rest log : list (nat * A)).
Import Timing.

Lemma waiting_call_inside t k a log t' a' :
  t ≤ t' → t' < t + wait →
  debounce.call_at wait (waiting wait t k a log) (t', a')
  = waiting wait t' (S k) a' log.
Proof.
  intros Hlo Hhi. unfold debounce.call_at. simpl.
  rewrite run_until_quiet by (simpl; done || (repeat constructor; simpl; lia)).
  unfold debounce.executedFunction, waiting. simpl.
  rewrite filter_cons_False by (simpl; intros ?; done).
  reflexivity.
Qed.

Lemma waiting_call_after t k a log t' a' :
  t + wait ≤ t' →
  debounce.call_at wait (waiting wait t k a log) (t', a')
  = waiting wait t' (S k) a' (log ++ [(t + wait, a)]).
Proof.
  intros Hhi. unfold debounce.call_at. simpl.
  erewrite run_until_single with (tm := {| tid := k; due := t + wait;
                                           cb := debounce.later a |});
    try done; simpl; lia.
Qed.

Lemma waiting_run_calls t k a log rest :
  chronological t rest.*1 →
  ∃ k', debounce.run_calls wait rest (waiting wait t k a log)
        = waiting wait (List.last rest (t, a)).1 k' (List.last rest (t, a)).2
                  (log ++ settled wait (t, a) rest).
Proof.
  revert t k a log. induction rest as [|[t' a'] rest IH];
    intros t k a log Hchr.
  - exists k. simpl. by rewrite app_nil_r.
  - destruct Hchr as [Hle Hchr]. simpl in Hle.
    unfold debounce.run_calls in *. cbn [fold_left].
    rewrite last_cons_default. cbn [settled]. simpl.
    destruct (decide (t + wait ≤ t')) as [Hafter|Hin].
    + rewrite waiting_call_after by done.
      destruct (IH t' (S k) a' (log ++ [(t + wait, a)]) Hchr) as [k' ->].
      exists k'. by rewrite <- app_assoc.
    + rewrite waiting_call_inside by lia.
      destruct (IH t' (S k) a' log Hchr) as [k' ->].
      by exists k'.
Qed.

Lemma waiting_run_until t k a log T :
  t ≤ T →
  debounce.invoked
    (world (run_until (debounce.run (A:=A)) T (waiting wait t k a log)))
  = log ++ (if T <? t + wait then [] else [(t + wait, a)]).
Proof.
  intros HT. destruct (Nat.ltb_spec T (t + wait)) as [Hlt|Hge].
  - rewrite run_until_quiet by (simpl; done || (repeat constructor; simpl; lia)).
    simpl. by rewrite app_nil_r.
  - erewrite run_until_single with (tm := {| tid := k; due := t + wait;
                                             cb := debounce.later a |});
      try done; simpl; lia.
Qed.

(** The invocations of [func] for any chronological series of calls. *)
Lemma debounce_invoked_until t0 c rest T :
  t0 ≤ c.1 →
  chronological c.1 rest.*1 →
  (List.last rest c).1 ≤ T →
  debounce.invoked
    (world (run_until (debounce.run (A:=A)) T
              (debounce.run_calls wait (c :: rest) (debounce.init t0))))
  = settled wait c rest
    ++ (if T <? (List.last rest c).1 + wait then []
        else [((List.last rest c).1 + wait, (List.last rest c).2)]).
Proof.
  intros H0 Hchr HT. destruct c as [t a]. simpl in *.
  unfold debounce.run_calls. cbn [fold_left].
  rewrite debounce_first_call by done.
  destruct (waiting_run_calls t 0 a [] rest Hchr) as [k' Heq].
  unfold debounce.run_calls in Heq.
  change (debounce.armed wait t 0 a) with (waiting wait t 0 a []).
  rewrite Heq. by rewrite waiting_run_until.
Qed.

Lemma settled_values c rest :
  (settled wait c rest).*2 ++ [(List.last rest c).2]
  `sublist_of` (c :: rest).*2.
Proof.
  revert c. induction rest as [|c' rest IH]; intros c.
  - done.
  - rewrite last_cons_default. cbn [settled]. rewrite fmap_app, <- app_assoc.
    rewrite (fmap_cons _ c). destruct (decide (c.1 + wait ≤ c'.1)); simpl.
    + apply sublist_skip, IH.
    + apply sublist_cons, IH.
Qed.

(** X6: for any chronological series of calls of a debounced wrapper,
    [func] runs for exactly those calls that no other call follows within
    [wait] ms: once, [wait] ms after the call, with the call's arguments;
    every call that is followed by another one sooner is dropped. *)
Theorem debounce_series t0 c rest T :
  t0 ≤ c.1 →
  chronological c.1 rest.*1 →
  (List.last rest c).1 ≤ T →
  debounce.invoked
    (world (run_until (debounce.run (A:=A)) T
              (debounce.run_calls wait (c :: rest) (debounce.init t0))))
  = settled wait c rest
    ++ (if T <? (List.last rest c).1 + wait then []
        else [((List.last rest c).1 + wait, (List.last rest c).2)]).
Proof. apply debounce_invoked_until. Qed.

End DebounceSeries.

(** Calls at 0, 50, 200 and 1000ms, debounced by 100ms: the first is
    dropped, the others run at 150, 300 and 1100ms. *)
Lemma debounce_series_witness :
  debounce.invoked
    (world (run_until (debounce.run (A:=nat)) 2000
              (debounce.run_calls 100 [(0, 1); (50, 2); (200, 3); (1000, 4)]
                 (debounce.init 0))))
  = [(150, 2); (300, 3); (1100, 4)].
Proof.
  apply (debounce_series 100 0 (0, 1) [(50, 2); (200, 3); (1000, 4)] 2000);
    simpl; lia.
Defined.

Section ThrottleSeries.
Context {A : Type} (limit : nat).
Implicit Types (a : A) (rest log cs : list (nat * A)).
Import Timing.

Lemma held_run_calls t1 k log t rest :
  t ≤ t1 + limit →
  chronological t rest.*1 →
  ∃ t1' k',
    List.last rest.*1 t ≤ t1' + limit ∧
    throttle.run_calls limit rest (throttle.held limit t1 k log t)
    = throttle.held limit t1' k' (log ++ throttled limit (t1 + limit) rest)
                    (List.last rest.*1 t).
Proof.
  revert t1 k log t. induction rest as [|[t2 a2] rest IH];
    intros t1 k log t Ht Hchr.
  - exists t1, k. simpl. by rewrite app_nil_r.
  - destruct Hchr as [Hle Hchr]. simpl in Hle.
    unfold throttle.run_calls in *.
    rewrite fmap_cons, last_cons_default. cbn [fold_left throttled]. simpl.
    destruct (decide (t1 + limit ≤ t2)) as [Hafter|Hin].
    + rewrite throttle_call_after by done.
      destruct (IH t2 (S k) (log ++ [(t2, a2)]) t2 ltac:(lia) Hchr)
        as (t1' & k' & Hlast & ->).
      exists t1', k'. by rewrite <- app_assoc.
    + rewrite throttle_call_inside by lia.
      destruct (IH t1 k log t2 ltac:(lia) Hchr) as (t1' & k' & Hlast & ->).
      by exists t1', k'.
Qed.

(** The invocations of [func] for any chronological series of calls. *)
Lemma throttle_invoked t0 cs :
  chronological t0 cs.*1 →
  throttle.invoked (world (throttle.run_calls limit cs (throttle.init t0)))
  = throttled limit 0 cs.
Proof.
  destruct cs as [|[t a] rest]; [done |]. intros [H0 Hchr]. simpl in H0.
  unfold throttle.run_calls. cbn [fold_left throttled]. simpl.
  rewrite throttle_first_call by done.
  destruct (held_run_calls t 0 [(t, a)] t rest ltac:(lia) Hchr)
    as (t1' & k' & _ & Heq).
  unfold throttle.run_calls in Heq. by rewrite Heq.
Qed.





End ThrottleSeries.



(** ** utils.formatTime and AudioPlayer.parseDuration *)

Section TimeText.
Import AudioPlayer utils.















Lemma split_colon_plain u :
  Forall (λ c, c ≠ COLON) u → split_colon u = [u].
Proof.
  induction 1 as [|c u Hc _ IH]; [done |].
  simpl. rewrite IH. by apply N.eqb_neq in Hc as ->.
Qed.







End TimeText.


(** ** AudioPlayer: playback over time *)

Section Playback.
Import AudioPlayer Playback.

Lemma updateProgress_finished p :
  finished p = true → updateProgress p = p.
Proof.
  unfold finished, updateProgress. intros Hf.
  destruct (state p) as [c|]; [|done].
  destruct (progressBar (element p)); [|done].
  destruct (currentTime (element p)); [|done].
  apply negb_true_iff in Hf. by rewrite Hf, andb_false_r.
Qed.

Lemma clickPlay_timeline i pg j p :
  players pg !! j = Some p →
  ∃ p', players (clickPlay i pg) !! j = Some p' ∧ timeline p' = timeline p.
Proof.
  intros Hj. unfold clickPlay.
  destruct (players pg !! i) as [[e [c|]]|] eqn:Hi; [|by eauto..].
  assert (Hreset : ∃ p0, playAudio i (players pg) !! j = Some p0 ∧
                         timeline p0 = timeline p).
  { unfold playAudio. rewrite list_lookup_imap, Hj. simpl.
    destruct (decide (j = i)); eauto. }
  assert (Hlen : i < length (players pg)) by by eapply lookup_lt_Some.
  destruct (decide (j = i)) as [->|Hne].
  - rewrite Hi in Hj. injection Hj as <-.
    destruct (negb (isPlaying c)); simpl.
    + rewrite list_lookup_insert_eq
        by (unfold playAudio; by rewrite length_imap).
      eauto.
    + rewrite list_lookup_insert_eq by done. eauto.
  - destruct (negb (isPlaying c)); simpl;
      rewrite list_lookup_insert_ne by done; [done | eauto].
Qed.

Lemma finished_timeline p p' :
  timeline p' = timeline p → finished p' = finished p.
Proof.
  unfold timeline, finished. intros [=Hs _ _].
  destruct (state p), (state p'); try done.
  simpl in Hs. by injection Hs as -> ->.
Qed.

Lemma run_finished es pg j p :
  players pg !! j = Some p → finished p = true →
  ∃ p', players (run es pg) !! j = Some p' ∧ timeline p' = timeline p.
Proof.
  revert pg p. induction es as [|e es IH]; intros pg p Hj Hf; simpl.
  - eauto.
  - assert (Hstep : ∃ p1, players (step pg e) !! j = Some p1 ∧
                          timeline p1 = timeline p).
    { destruct e as [i|i]; simpl.
      - by apply clickPlay_timeline.
      - destruct (decide (i = j)) as [->|Hne].
        + rewrite list_lookup_alter_eq, Hj. simpl.
          rewrite updateProgress_finished by done. eauto.
        + rewrite list_lookup_alter_ne by done. eauto. }
    destruct Hstep as (p1 & Hp1 & Ht1).
    destruct (IH _ _ Hp1) as (p2 & Hp2 & Ht2).
    { by rewrite (finished_timeline _ _ Ht1). }
    exists p2. split; [done | congruence].
Qed.

(** X11: once a player's progress is no longer below its duration (it
    played to the end, or the duration is [NaN]), no click and no tick
    changes its progress counter, its progress bar or its current-time
    text again: playback neither restarts nor loops. *)
Theorem finished_player_is_frozen es pg j p :
  players pg !! j = Some p → finished p = true →
  ∃ p', players (run es pg) !! j = Some p' ∧ timeline p' = timeline p.
Proof. apply run_finished. Qed.

Lemma parseDuration_no_colon text :
  Forall (λ c, c ≠ COLON) text → parseDuration text = NaN.
Proof.
  intros Hc. unfold parseDuration. rewrite split_colon_plain by done.
  simpl. by destruct (num_mul _ _).
Qed.

(** X12: a player whose total-time text is not empty and has no colon gets
    the duration [NaN] ([parts[1]] is [undefined]), and its progress stays
    at 0 whatever is clicked and however often its interval ticks. *)
Theorem player_without_colon_never_advances es pg j e text :
  players pg !! j = Some (initializePlayer e) →
  totalTime e = Some text → text ≠ [] → Forall (λ c, c ≠ COLON) text →
  ∃ p', players (run es pg) !! j = Some p' ∧
        progressOf p' = 0%Z ∧
        progressBar (element p') = progressBar e ∧
        currentTime (element p') = currentTime e.
Proof.
  intros Hj Ht Hne Hc.
  destruct (run_finished es pg j _ Hj) as (p' & Hp' & Htl).
  { unfold finished, initializePlayer. destruct (playBtn e); [|done].
    simpl. rewrite Ht. destruct text; [done |]. simpl truthy. cbv iota.
    by rewrite parseDuration_no_colon. }
  exists p'. split; [done |].
  unfold timeline in Htl. injection Htl as Hs Hb Ht'.
  unfold progressOf. unfold initializePlayer in *.
  destruct (playBtn e); simpl in *; destruct (state p'); by simplify_eq/=.
Qed.

Lemma ticks_cons i n pg :
  run (replicate (S n) (Tick i)) pg
  = run (replicate n (Tick i)) (tickPlayer i pg).
Proof. done. Qed.

Lemma updateProgress_advance p c d :
  state p = Some c → hasInterval p = true →
  isPlaying c = true → duration c = Int d → (progress c < d)%Z →
  updateProgress p
  = {| element :=
         {| playBtn := playBtn (element p);
            progressBar := Some (Percent (progress c + 1) (Int d));
            currentTime := Some (utils.formatTime (progress c + 1));
            totalTime := totalTime (element p) |};
       state := Some {| isPlaying := true; progress := progress c + 1;
                        duration := Int d |} |}.
Proof.
  intros Hc Hint Hp Hd Hlt. unfold updateProgress, hasInterval in *.
  rewrite Hc in *.
  destruct (progressBar (element p)); [|done].
  destruct (currentTime (element p)); [|done].
  rewrite Hp, Hd. simpl. by apply Z.ltb_lt in Hlt as ->.
Qed.

Lemma ticks_from_shown m i d : ∀ pg p c,
  players pg !! i = Some p → state p = Some c → hasInterval p = true →
  isPlaying c = true → duration c = Int d → (progress c ≤ d)%Z →
  progressBar (element p) = Some (Percent (progress c) (Int d)) →
  currentTime (element p) = Some (utils.formatTime (progress c)) →
  ∃ p', players (run (replicate m (Tick i)) pg) !! i = Some p' ∧
        let reached := Z.min (progress c + Z.of_nat m) d in
        progressOf p' = reached ∧
        playing p' = true ∧
        progressBar (element p') = Some (Percent reached (Int d)) ∧
        currentTime (element p') = Some (utils.formatTime reached).
Proof.
  induction m as [|m IH]; intros pg p c Hi Hc Hint Hp Hd Hle Hb Ht.
  - exists p. simpl. rewrite Z.add_0_r, Z.min_l by lia.
    unfold progressOf, playing. by rewrite Hc.
  - rewrite ticks_cons.
    destruct (decide (progress c < d)%Z) as [Hlt|Hge].
    + pose proof (updateProgress_advance p c d Hc Hint Hp Hd Hlt) as Hup.
      edestruct (IH (tickPlayer i pg)) as (p' & Hp' & Hres).
      * simpl. by rewrite list_lookup_alter_eq, Hi.
      * by rewrite Hup.
      * by rewrite Hup.
      * done.
      * done.
      * simpl. lia.
      * by rewrite Hup.
      * by rewrite Hup.
      * exists p'. split; [done |]. simpl in *.
        assert ((progress c + Z.of_nat (S m))%Z
                = (progress c + 1 + Z.of_nat m)%Z) as -> by lia.
        done.
    + assert (progress c = d) as Heq by lia.
      edestruct (IH (tickPlayer i pg) p c) as (p' & Hp' & Hres);
        try done.
      * simpl. rewrite list_lookup_alter_eq, Hi. simpl. f_equal.
        apply updateProgress_finished. unfold finished.
        rewrite Hc, Hd. simpl. apply negb_true_iff, Z.ltb_ge. lia.
      * exists p'. split; [done |]. simpl in *.
        by rewrite !Z.min_r in * by lia.
Qed.

(** X13: [n] ticks of the interval of a playing player with a numeric
    duration move its progress up by [n] seconds, but not past the
    duration; the progress bar and the current-time text show that
    progress, and the player is still marked as playing. *)
Theorem ticks_advance_to_duration n i pg p c d :
  players pg !! i = Some p → state p = Some c → hasInterval p = true →
  isPlaying c = true → duration c = Int d → (progress c < d)%Z → 0 < n →
  ∃ p', players (run (replicate n (Tick i)) pg) !! i = Some p' ∧
        let reached := Z.min (progress c + Z.of_nat n) d in
        progressOf p' = reached ∧
        playing p' = true ∧
        progressBar (element p') = Some (Percent reached (Int d)) ∧
        currentTime (element p') = Some (utils.formatTime reached).
Proof.
  intros Hi Hc Hint Hp Hd Hlt Hn.
  destruct n as [|n]; [lia |]. rewrite ticks_cons.
  pose proof (updateProgress_advance p c d Hc Hint Hp Hd Hlt) as Hup.
  edestruct (ticks_from_shown n i d (tickPlayer i pg))
    as (p' & Hp' & Hres).
  - simpl. by rewrite list_lookup_alter_eq, Hi.
  - by rewrite Hup.
  - by rewrite Hup.
  - done.
  - done.
  - simpl. lia.
  - by rewrite Hup.
  - by rewrite Hup.
  - exists p'. split; [done |]. simpl in *.
    assert ((progress c + Z.of_nat (S n))%Z
            = (progress c + 1 + Z.of_nat n)%Z) as -> by lia.
    done.
Qed.

(** X14: over any run of clicks and ticks at most one play button of the
    page shows the pause control, if at most one did at the start, even
    though several players can be playing at once. *)
Theorem pause_control_is_unique es pg :
  length (List.filter showsPause (players pg)) ≤ 1 →
  length (List.filter showsPause (players (run es pg))) ≤ 1.
Proof.
  revert pg. induction es as [|e es IH]; intros pg Hone; simpl; [done |].
  apply IH. by apply step_showsPause.
Qed.

End Playback.

Lemma finished_player_is_frozen_witness :
  ∃ p', AudioPlayer.players
          (AudioPlayer.run [AudioPlayer.Click 0; AudioPlayer.Tick 0;
                            AudioPlayer.Tick 0]
                           (Playback.single "0:00")) !! 0 = Some p' ∧
        Playback.timeline p'
        = Playback.timeline
            (AudioPlayer.initializePlayer (Examples.playerMarkup "0:00")).
Proof.
  apply (finished_player_is_frozen _ (Playback.single "0:00") 0);
    reflexivity.
Defined.

Lemma player_without_colon_never_advances_witness :
  ∃ p', AudioPlayer.players
          (AudioPlayer.run [AudioPlayer.Click 0; AudioPlayer.Tick 0]
                           (Playback.single "45")) !! 0 = Some p' ∧
        AudioPlayer.progressOf p' = 0%Z ∧
        AudioPlayer.progressBar (AudioPlayer.element p')
        = Some AudioPlayer.Unset ∧
        AudioPlayer.currentTime (AudioPlayer.element p') = Some (str "0:00").
Proof.
  apply (player_without_colon_never_advances _ (Playback.single "45") 0
           (Examples.playerMarkup "45") (str "45"));
    [reflexivity | reflexivity | done |].
  by apply (bool_decide_unpack (Forall _ _)).
Defined.

Lemma ticks_advance_to_duration_witness :
  ∃ p', AudioPlayer.players
          (AudioPlayer.run (replicate 5 (AudioPlayer.Tick 0))
             (AudioPlayer.clickPlay 0 (Playback.single "0:03"))) !! 0
        = Some p' ∧
        AudioPlayer.progressOf p' = 3%Z ∧
        AudioPlayer.playing p' = true ∧
        AudioPlayer.progressBar (AudioPlayer.element p')
        = Some (AudioPlayer.Percent 3 (Int 3)) ∧
        AudioPlayer.currentTime (AudioPlayer.element p')
        = Some (utils.formatTime 3).
Proof.
  apply (ticks_advance_to_duration 5 0
           (AudioPlayer.clickPlay 0 (Playback.single "0:03")) _ _ 3
           eq_refl eq_refl eq_refl eq_refl eq_refl);
    [reflexivity | lia].
Defined.

Lemma pause_control_is_unique_witness :
  length (List.filter AudioPlayer.showsPause
            (AudioPlayer.players
               (AudioPlayer.run [AudioPlayer.Click 0; AudioPlayer.Click 1]
                                Examples.twoPlayers))) ≤ 1.
Proof.
  apply (pause_control_is_unique _ Examples.twoPlayers). simpl. lia.
Defined.

(** ** Navigation: the mobile menu *)

Section MobileMenuFacts.
Import MobileMenu.

Lemma isExpanded_ofBool b tm a bo tf an :
  isExpanded {| toggleExpanded := Some (Forms.ofBool b); menuExpanded := tm;
                toggleActive := a; bodyOverflow := bo; toggleFocused := tf;
                announcer := an |} = b.
Proof. by destruct b. Qed.

Lemma step_consistent n e : consistent n → consistent (step n e).
Proof.
  intros Hn. pose proof Hn as (Ha & Hm & Ho).
  destruct e as [| | |key]; simpl.
  - unfold clickToggle, consistent.
    rewrite isExpanded_ofBool. simpl. rewrite Ha.
    by destruct (isExpanded n).
  - done.
  - by split_and!.
  - unfold keydown.
    destruct (bool_decide (key = str "Escape") && isExpanded n);
      [by split_and! | done].
Qed.

(** X15: the marks of an open mobile menu stay in step over any series of
    clicks and key presses: the toggle has the active class, the menu has
    [aria-expanded="true"] and the page scroll is locked exactly when the
    toggle has [aria-expanded="true"], provided they agreed at the start. *)
Theorem mobile_menu_marks_agree es n :
  consistent n → consistent (run es n).
Proof.
  revert n. induction es as [|e es IH]; intros n Hn; simpl; [done |].
  by apply IH, step_consistent.
Qed.

(** Whatever came before, and whether or not the marks agreed, a click
    outside toggle and menu leaves the menu closed, the scroll lock
    released and the marks in agreement; so does [Escape] when the toggle
    says the menu is open, and only then is the toggle focused. *)
Lemma mobile_menu_closes es n e :
  e = ClickElsewhere ∨ e = Keydown (str "Escape") ∧ isExpanded (run es n) = true →
  let n' := run (es ++ [e]) n in
  isExpanded n' = false ∧ consistent n' ∧ bodyOverflow n' = [] ∧
  toggleFocused n'
  = match e with ClickElsewhere => toggleFocused (run es n) | _ => true end.
Proof.
  intros He n'. subst n'. unfold run. rewrite fold_left_app. simpl.
  fold (run es n).
  destruct He as [->|[-> Hx]]; simpl; [done |].
  unfold keydown. rewrite Hx. done.
Qed.

End MobileMenuFacts.

Lemma mobile_menu_marks_agree_witness :
  MobileMenu.consistent
    (MobileMenu.run
       [MobileMenu.ClickToggle; MobileMenu.ClickMenu;
        MobileMenu.Keydown (str "Escape")]
       {| MobileMenu.toggleExpanded := Some (str "false");
          MobileMenu.menuExpanded := Some (str "false");
          MobileMenu.toggleActive := false;
          MobileMenu.bodyOverflow := [];
          MobileMenu.toggleFocused := false;
          MobileMenu.announcer := Some [] |}).
Proof.
  apply (mobile_menu_marks_agree
           [MobileMenu.ClickToggle; MobileMenu.ClickMenu;
            MobileMenu.Keydown (str "Escape")]).
  repeat split.
Defined.

(** ** Modal: a whole submission *)

Section ModalFlowFacts.
Import Modal ModalFlow.

Lemma announce_twice m1 m2 (a : option jsstring) :
  utils.announce m2 (utils.announce m1 a) = utils.announce m2 a.
Proof. by destruct a. Qed.


(** X17: when [submitEmail] fulfils for a valid address and the 2000ms
    callback has run, the dialog is marked hidden, the scroll lock is
    released, the 250ms hiding timer is set, the email input holds its
    default value again, and the submit button is enabled with its first
    label and no background. *)
Theorem successful_submission_closes_dialog dflt d email b :
  emailValue d = Some email → utils.isValidEmail email = true →
  submitBtn d = Some b →
  let d' := (submitAndSettle true dflt d).2 in
  (submitAndSettle true dflt d).1 = Returned ∧
  emailValue d' = Some dflt ∧
  submitBtn d' = Some {| disabled := false; textContent := textContent b;
                         background := [] |} ∧
  errorDiv d' = write_if_present [] (errorDiv d) ∧
  ariaHidden (modal d') = Some (str "true") ∧
  display (modal d') = display (modal d) ∧
  isOpen d' = false ∧
  bodyOverflow d' = [] ∧
  announcer d' = utils.announce (str "Dialog closed") (announcer d) ∧
  submitEmailCalls d' = submitEmailCalls d ++ [email] ∧
  timers d'
  = timers d ++ [(2000, Modal.closeAndRestore (textContent b));
                 (250, hideModal)].
Proof.
  intros He Hok Hb d'. subst d'.
  unfold submitAndSettle, handleEmailSubmission.
  repeat (rewrite ?He, ?Hok, ?Hb; simpl).
  split_and!; try done.
  - by destruct (announcer d).
  - by rewrite <- app_assoc.
Qed.

End ModalFlowFacts.


Lemma successful_submission_closes_dialog_witness :
  let d := {| Modal.emailValue := Some (str "dina@example.org");
              Modal.submitBtn := Modal.submitBtn Examples.dialogWithBadEmail;
              Modal.errorDiv := Some [];
              Modal.modal := Modal.modal Examples.dialogWithBadEmail;
              Modal.bodyOverflow := str "hidden";
              Modal.announcer := Some [];
              Modal.submitEmailCalls := [];
              Modal.timers := [] |} in
  Modal.isOpen (ModalFlow.submitAndSettle true [] d).2 = false.
Proof.
  intros d.
  apply (successful_submission_closes_dialog [] d (str "dina@example.org")
           _ eq_refl eq_refl eq_refl).
Defined.

(** ** Forms: field validation *)

Section Validation.
Import utils Forms.

Lemma trim_id s :
  match s with c :: _ => is_space c = false | [] => True end →
  match rev s with c :: _ => is_space c = false | [] => True end →
  trim s = s.
Proof.
  intros Hh Hl. unfold trim, trimEnd.
  assert (Hs : trimStart s = s) by (destruct s; simpl; by rewrite ?Hh).
  rewrite Hs.
  assert (Hr : trimStart (rev s) = rev s)
    by (destruct (rev s); simpl; by rewrite ?Hl).
  rewrite Hr. apply rev_involutive.
Qed.

Lemma addressRun_head u rest :
  addressRun u →
  match u ++ rest with c :: _ => is_space c = false | [] => True end.
Proof.
  intros [Hne Hall]. destruct u as [|c u]; [done |].
  by apply list.Forall_cons in Hall as [[? _] _].
Qed.

Lemma addressRun_rev w : addressRun w → addressRun (rev w).
Proof.
  intros [Hne Hall]. split.
  - intros Hr. apply Hne. by rewrite <- (rev_involutive w), Hr.
  - by apply List.Forall_rev.
Qed.

Lemma addressPattern_trim s : addressPattern s → trim s = s ∧ s ≠ [].
Proof.
  intros (u & v & w & -> & Hu & Hv & Hw). split.
  - apply trim_id.
    + by apply addressRun_head.
    + rewrite !rev_app_distr, <- !app_assoc.
      by apply addressRun_head, addressRun_rev.
  - destruct Hu as [Hne _]. by destruct u.
Qed.

Lemma count_AT_run u : addressRun u → count_occ N.eq_dec u AT = 0.
Proof.
  intros [_ Hall]. apply count_occ_not_In. intros Hin.
  rewrite List.Forall_forall in Hall. by destruct (Hall _ Hin).
Qed.

(** X18: an address that [isValidEmail] accepts has exactly one ['@'], no
    whitespace and at least five code units, and [trim] leaves it as it
    is. *)
Theorem isValidEmail_shape s :
  isValidEmail s = true →
  count_occ N.eq_dec s AT = 1 ∧
  Forall (λ c, is_space c = false) s ∧
  5 ≤ length s ∧
  trim s = s.
Proof.
  intros Hs%isValidEmail_addressPattern.
  destruct (addressPattern_trim s Hs) as [Ht _].
  destruct Hs as (u & v & w & -> & Hu & Hv & Hw).
  split_and!; [| | | done].
  - rewrite !count_occ_app.
    rewrite (count_AT_run u), (count_AT_run v), (count_AT_run w) by done.
    reflexivity.
  - destruct Hu as [_ Hu], Hv as [_ Hv], Hw as [_ Hw].
    repeat (apply Forall_app; split);
      try (by repeat constructor);
      (eapply list.Forall_impl; [eassumption |]); by intros c [? _].
  - destruct Hu as [Hu _], Hv as [Hv _], Hw as [Hw _].
    rewrite !length_app. simpl.
    destruct u, v, w; simpl; try done; lia.
Qed.










End Validation.

Section NewsletterFacts.
Import utils Forms Newsletter.


End NewsletterFacts.

Lemma isValidEmail_shape_witness :
  count_occ N.eq_dec (str "dina@example.org") AT = 1 ∧
  Forall (λ c, is_space c = false) (str "dina@example.org") ∧
  5 ≤ length (str "dina@example.org") ∧
  trim (str "dina@example.org") = str "dina@example.org".
Proof. apply (isValidEmail_shape (str "dina@example.org")). reflexivity. Defined.




(** ** ScrollEffects *)

Section ScrollFacts.
Import ScrollEffects Timing.

Lemma throttled_inside {A} limit closed_until (cs : list (nat * A)) :
  Forall (λ c, c.1 < closed_until) cs → throttled limit closed_until cs = [].
Proof.
  induction 1 as [|c cs Hc _ IH]; simpl; [done |].
  by rewrite decide_False by lia.
Qed.

Lemma gt_px_mono y (a b : Z) : (a ≤ b)%Z → gt y (px b) = true → gt y (px a) = true.
Proof.
  unfold gt. intros Hab.
  destruct (QArith_base.Qlt_le_dec (px b) y) as [Hb|]; [intros _ | done].
  destruct (QArith_base.Qlt_le_dec (px a) y) as [|Ha]; [done |].
  exfalso. apply (QArith_base.Qlt_not_le _ _ Hb).
  eapply QArith_base.Qle_trans; [exact Ha |].
  unfold QArith_base.Qle, px. simpl. lia.
Qed.

Lemma handleScroll_hidden_scrolled y h :
  hidden (handleScroll y h) = true → scrolled (handleScroll y h) = true.
Proof.
  unfold handleScroll. simpl.
  destruct (gt y (lastScroll h)); simpl; [|done].
  destruct (gt y (px 200)) eqn:Hy; simpl; [|done].
  intros _. by rewrite (gt_px_mono y 100 200) by (lia || done).
Qed.

(** X24: the scroll-to-top button only follows the first scroll event of
    a burst: when all later events of the series come less than 100ms
    after the first, the button is visible exactly when the page was more
    than 300px down at the first event, wherever the later events found
    it. *)
Theorem scroll_button_follows_first_of_burst t0 t1 y1 rest visible :
  chronological t0 ((t1, y1) :: rest).*1 →
  Forall (λ c, c.1 < t1 + 100) rest →
  buttonAfter t0 ((t1, y1) :: rest) visible = gt y1 (px 300).
Proof.
  intros Hchr Hin. unfold buttonAfter.
  rewrite throttle_invoked by done. cbn [throttled].
  rewrite decide_True by (simpl; lia).
  rewrite throttled_inside by done. simpl.
  unfold toggleVisibility. by destruct (gt y1 (px 300)).
Qed.

(** X25: over any series of scroll events the header is never hidden
    without also being marked as scrolled, if that held at the start. *)
Theorem header_hidden_only_when_scrolled t0 cs h :
  (hidden h = true → scrolled h = true) →
  let h' := headerAfter t0 cs h in
  hidden h' = true → scrolled h' = true.
Proof.
  intros Hh h'. subst h'. unfold headerAfter.
  generalize (throttle.invoked
                (world (throttle.run_calls 10 cs (throttle.init t0)))).
  intros ran. revert h Hh.
  induction ran as [|c ran IH]; intros h Hh; simpl; [done |].
  apply IH, handleScroll_hidden_scrolled.
Qed.

End ScrollFacts.

(** The page is at the top at time 0 and 900px down 40ms and 80ms later:
    the button stays invisible. *)
Lemma scroll_button_follows_first_of_burst_witness :
  ScrollEffects.buttonAfter 0
    [(0, ScrollEffects.px 0); (40, ScrollEffects.px 900);
     (80, ScrollEffects.px 900)] false
  = false.
Proof.
  apply (scroll_button_follows_first_of_burst 0 0 (ScrollEffects.px 0)
           [(40, ScrollEffects.px 900); (80, ScrollEffects.px 900)] false).
  - simpl. lia.
  - repeat constructor; simpl; lia.
Defined.

Lemma header_hidden_only_when_scrolled_witness :
  let h := {| ScrollEffects.scrolled := false; ScrollEffects.hidden := false;
              ScrollEffects.lastScroll := ScrollEffects.px 0 |} in
  let h' := ScrollEffects.headerAfter 0
              [(0, ScrollEffects.px 50); (20, ScrollEffects.px 250)] h in
  ScrollEffects.hidden h' = true ∧ ScrollEffects.scrolled h' = true.
Proof.
  intros h. split; [reflexivity |].
  apply (header_hidden_only_when_scrolled 0
           [(0, ScrollEffects.px 50); (20, ScrollEffects.px 250)] h);
    [discriminate | reflexivity].
Defined.

(** ** Search: the live search *)

Section LiveSearch.
Import Search Timing.

Lemma liveSearch_fold (invs : list (nat * jsstring)) qs :
  fold_left (λ qs c, liveSearch c.2 qs) invs qs
  = qs ++ List.filter (λ v, 2 <? length v) invs.*2.
Proof.
  revert qs. induction invs as [|c invs IH]; intros qs; simpl.
  - by rewrite app_nil_r.
  - rewrite IH. unfold liveSearch.
    destruct (2 <? length c.2); [by rewrite <- app_assoc | done].
Qed.

Lemma List_filter_sublist {B} (p : B → bool) (l : list B) :
  List.filter p l `sublist_of` l.
Proof.
  induction l as [|x l IH]; simpl; [done |].
  destruct (p x); [by apply sublist_skip | by apply sublist_cons].
Qed.

(** X26: however the visitor types, the live search only ever searches for
    values of more than two code units, each of them a value the input
    held at one of the events, in the order of the events; and a value of
    more than two code units that is left alone for 500ms is searched
    for, as the last search so far. *)
Theorem live_search_after_pause t0 c rest T :
  t0 ≤ c.1 → chronological c.1 rest.*1 → (List.last rest c).1 ≤ T →
  let searches := searchesAt T t0 (c :: rest) in
  Forall (λ q, 2 < length q) searches ∧
  searches `sublist_of` (c :: rest).*2 ∧
  ((List.last rest c).1 + 500 ≤ T → 2 < length (List.last rest c).2 →
   List.last searches [] = (List.last rest c).2).
Proof.
  intros H0 Hchr HT searches. subst searches. unfold searchesAt.
  rewrite debounce_invoked_until by done.
  rewrite liveSearch_fold. simpl.
  split_and!.
  - apply List.Forall_forall. intros q [_ Hq]%filter_In.
    by apply Nat.ltb_lt in Hq.
  - etrans; [apply List_filter_sublist |].
    rewrite fmap_app.
    etrans; [| apply (settled_values 500 c rest)].
    apply sublist_app; [done |].
    destruct (T <? _); [apply sublist_nil_l | done].
  - intros Hpause Hlong.
    destruct (Nat.ltb_spec T ((List.last rest c).1 + 500)); [lia |].
    rewrite fmap_app, List.filter_app. simpl.
    apply Nat.ltb_lt in Hlong as ->. apply last_last.
Qed.

End LiveSearch.

(** "to" typed at 0 and 100ms, "tor" at 900ms and "tora" at 1000ms: the
    only search is the one for "tora". *)
Lemma live_search_after_pause_witness :
  Search.searchesAt 2000 0
    [(0, str "t"); (100, str "to"); (900, str "tor"); (1000, str "tora")]
  `sublist_of` [str "t"; str "to"; str "tor"; str "tora"].
Proof.
  refine (proj1 (proj2 (live_search_after_pause 0 (0, str "t")
            [(100, str "to"); (900, str "tor"); (1000, str "tora")] 2000
            _ _ _))); simpl; lia.
Defined.

(** ** FAQ accordion: pages whose items are all complete *)

Section CompleteAccordion.
Import FAQ.

Lemma clickQuestion_keeps_complete i pg :
  Forall (λ it, complete it = true) (faqItems pg) →
  Forall (λ it, complete it = true) (faqItems (clickQuestion i pg).2).
Proof.
  intros Hall.
  destruct (faqItems pg !! i) as [it|] eqn:Hi.
  - destruct (clickQuestion_complete i pg it Hall Hi) as [_ Hitems].
    apply Forall_lookup. intros k it' Hk. specialize (Hitems k it' Hk).
    destruct (decide (k = i)); by subst it'.
  - unfold clickQuestion. by rewrite Hi.
Qed.

Lemma step_keeps_complete pg e :
  Forall (λ it, complete it = true) (faqItems pg) →
  Forall (λ it, complete it = true) (faqItems (step pg e).2).
Proof.
  intros Hall. destruct e as [i|key i]; simpl.
  - by apply clickQuestion_keeps_complete.
  - unfold keydownQuestion.
    destruct (bool_decide (key = str "Enter") || bool_decide (key = str " "));
      [by apply clickQuestion_keeps_complete | done].
Qed.

Lemma run_keeps_complete es pg :
  Forall (λ it, complete it = true) (faqItems pg) →
  Forall (λ it, complete it = true) (faqItems (run es pg)).
Proof.
  revert pg. induction es as [|e es IH]; intros pg Hall; simpl; [done |].
  by apply IH, step_keeps_complete.
Qed.

Lemma clickQuestion_normal i pg :
  Forall (λ it, complete it = true) (faqItems pg) →
  (clickQuestion i pg).1 = Normal.
Proof.
  intros Hall. destruct (faqItems pg !! i) as [it|] eqn:Hi.
  - by destruct (clickQuestion_complete i pg it Hall Hi).
  - unfold clickQuestion. by rewrite Hi.
Qed.

(** X27: on an accordion whose items all have a question and an answer,
    no click and no key press ever throws, whatever happened before; and
    a click on a question then toggles its item and leaves every other
    item collapsed with its answer hidden. *)
Theorem complete_accordion_works es pg :
  Forall (λ it, complete it = true) (faqItems pg) →
  (∀ e, (step (run es pg) e).1 = Normal) ∧
  ∀ i it, faqItems (run es pg) !! i = Some it →
    ∀ k it', faqItems (clickQuestion i (run es pg)).2 !! k = Some it' →
      it' = if decide (k = i)
            then {| question := Some (Some (ofBool (negb (expanded it))));
                    answer := Some (Some (ofBool (expanded it))) |}
            else {| question := Some (Some (str "false"));
                    answer := Some (Some (str "true")) |}.
Proof.
  intros Hall%(run_keeps_complete es). split.
  - intros [i|key i]; simpl.
    + by apply clickQuestion_normal.
    + unfold keydownQuestion.
      destruct (bool_decide (key = str "Enter")
                || bool_decide (key = str " "));
        [by apply clickQuestion_normal | done].
  - intros i it Hi k it' Hk.
    destruct (clickQuestion_complete i _ it Hall Hi) as [_ Hitems].
    specialize (Hitems k it' Hk). by destruct (decide (k = i)).
Qed.

(** X28: over any series of clicks and key presses at most one item of the
    accordion is expanded, if at most one was at the start; this also
    holds when handlers throw on the way. *)
Theorem accordion_at_most_one_open es pg :
  expandedCount pg ≤ 1 → expandedCount (run es pg) ≤ 1.
Proof.
  revert pg. induction es as [|e es IH]; intros pg Hone; simpl; [done |].
  apply IH. by apply step_expandedCount.
Qed.

End CompleteAccordion.

Lemma complete_accordion_works_witness :
  (FAQ.step (FAQ.run [FAQ.Click 1; FAQ.Keydown (str "Enter") 2]
                     Examples.faqThree) (FAQ.Click 0)).1 = FAQ.Normal.
Proof.
  refine (proj1 (complete_accordion_works
                   [FAQ.Click 1; FAQ.Keydown (str "Enter") 2]
                   Examples.faqThree _) (FAQ.Click 0)).
  repeat constructor.
Defined.

Lemma accordion_at_most_one_open_witness :
  FAQ.expandedCount
    (FAQ.run [FAQ.Click 1; FAQ.Click 2] Examples.faqWithBareItem) ≤ 1.
Proof.
  apply (accordion_at_most_one_open [FAQ.Click 1; FAQ.Click 2]
           Examples.faqWithBareItem).
  vm_compute. lia.
Defined.

(** ** The orchestrator: what a run of [initializeComponents] leaves *)

Section OrchestratorRuns.
Import PrismOfTorah.
Context {W E : Type} (init : component → W → W * option E).

Lemma tryInits_prefix cs : ∀ w called,
  ∃ pre, pre `prefix_of` cs ∧
         (tryInits init cs w called).1.2 = called ++ pre ∧
         match (tryInits init cs w called).2 with
         | None => pre = cs
         | Some _ => pre ≠ []
         end.
Proof.
  induction cs as [|c cs IH]; intros w called; simpl.
  - exists []. by rewrite app_nil_r.
  - destruct (init c w) as [w' [e|]]; simpl.
    + exists [c]. split; [by exists cs | done].
    + destruct (IH w' (called ++ [c])) as (pre & Hpre & Hcalled & Hres).
      exists (c :: pre). split; [by apply prefix_cons |].
      rewrite Hcalled, <- app_assoc. split; [done |].
      destruct (tryInits init cs w' (called ++ [c])).2; [done |].
      by rewrite Hres.
Qed.

Lemma tryInits_no_throw cs : ∀ w called,
  (∀ c w, (init c w).2 = None) →
  tryInits init cs w called
  = (fold_left (λ w c, (init c w).1) cs w, called ++ cs, None).
Proof.
  induction cs as [|c cs IH]; intros w called Hnone; simpl.
  - by rewrite app_nil_r.
  - pose proof (Hnone c w) as Hc.
    destruct (init c w) as [w' [e|]]; [done |].
    rewrite IH by done. by rewrite <- app_assoc.
Qed.

(** X29: [initializeComponents] never throws and always writes exactly one
    line to the console.  The [init()] calls it made are a beginning of
    the list of eleven, in order; they are all eleven, with the page
    announced as loaded, exactly when the line is the success message,
    and otherwise the line is the error caught and nothing is
    announced. *)
Theorem initializeComponents_outcome s :
  let s' := initializeComponents init s in
  ∃ pre, pre `prefix_of` order ∧ invoked s' = invoked s ++ pre ∧
    (console s' = console s ++ [log_initialized] ∧ pre = order ∧
     announcer s' = utils.announce (str "Page loaded") (announcer s)
     ∨ ∃ e, console s' = console s ++ [error_initializing e] ∧
            pre ≠ [] ∧ announcer s' = announcer s).
Proof.
  intros s'. subst s'. unfold initializeComponents.
  destruct (tryInits_prefix order (dom s) (invoked s))
    as (pre & Hpre & Hcalled & Hres).
  exists pre. split; [done |].
  destruct (tryInits init order (dom s) (invoked s)) as [[w called] [e|]];
    simpl in *.
  - split; [done |]. right. by exists e.
  - split; [done |]. left. done.
Qed.

(** X30: when no [init()] throws, [initializeComponents] runs all eleven,
    each on the page the one before it left, in the order of the source,
    logs the success message and announces "Page loaded". *)
Theorem initializeComponents_all_succeed s :
  (∀ c w, (init c w).2 = None) →
  initializeComponents init s
  = {| dom := fold_left (λ w c, (init c w).1) order (dom s);
       invoked := invoked s ++ order;
       console := console s ++ [log_initialized];
       announcer := utils.announce (str "Page loaded") (announcer s) |}.
Proof.
  intros Hnone. unfold initializeComponents.
  by rewrite tryInits_no_throw.
Qed.

End OrchestratorRuns.

Lemma initializeComponents_all_succeed_witness :
  PrismOfTorah.dom
    (PrismOfTorah.initializeComponents (E:=string)
       (λ c ready, (ready ++ [c], None)) Examples.freshSite)
  = PrismOfTorah.order.
Proof.
  rewrite (initializeComponents_all_succeed (E:=string)
             (λ c ready, (ready ++ [c], None)) Examples.freshSite);
    [reflexivity | done].
Defined.
